(** * 2D geometry kernel (src/geometry/main.py)

    Shallow embedding of the [Point], [Line], [Segment] and [Polygon]
    classes.  Python floats are modelled by exact rationals [Q]; the one
    non-finite value the code produces on purpose, [float('inf')] returned
    by [Line.slope] and [Line.intercept], is modelled by the extra constructor
    [PInf] of [fl].  Python exceptions are the [Err] branch of [result]. *)

From Stdlib Require Import QArith Qabs Qreals Lqa List Arith Lia Reals Lra.
Import ListNotations.

Open Scope Q_scope.

(** ** Exceptions and the result monad *)

Inductive exn :=
| ZeroDivisionError
| AssertionError
| GeometryException
| AttributeError
| ValueError
| TypeError.

Inductive result (A : Type) : Type :=
| Ok (a : A)
| Err (e : exn).
Arguments Ok {A} a.
Arguments Err {A} e.

Definition bind {A B : Type} (m : result A) (k : A -> result B) : result B :=
  match m with
  | Ok a => k a
  | Err e => Err e
  end.

Notation "'let*' x ':=' m 'in' k" := (bind m (fun x => k))
  (at level 200, x name, m at level 100, k at level 200).

(** A list comprehension [[f(x) for x in xs]]: the first exception wins. *)
Fixpoint mapM {A B : Type} (f : A -> result B) (xs : list A) : result (list B) :=
  match xs with
  | [] => Ok []
  | x :: xs' => let* y := f x in let* ys := mapM f xs' in Ok (y :: ys)
  end.

(** Python's [zip]: stops at the shorter argument. *)
Fixpoint zipWith {A B C : Type} (f : A -> B -> C) (xs : list A) (ys : list B) : list C :=
  match xs, ys with
  | x :: xs', y :: ys' => f x y :: zipWith f xs' ys'
  | _, _ => []
  end.

(** ** Floats with [float('inf')] *)

Inductive fl :=
| Fin (q : Q)
| PInf.

(** Python [==] on floats: numeric equality, [inf == inf]. *)
Definition fl_eqb (u v : fl) : bool :=
  match u, v with
  | Fin p, Fin q => Qeq_bool p q
  | PInf, PInf => true
  | _, _ => false
  end.

(** [EPSILON = Epsilon(1e-6)]: the global precision. *)
Definition EPSILON : Q := 1 # 1000000.

(** Python's [x / y] on floats raises [ZeroDivisionError] when [y == 0]. *)
Definition div (x y : Q) : result Q :=
  if Qeq_bool y 0 then Err ZeroDivisionError else Ok (x / y).

(** ** Point *)

Record Point := mkPoint { px : Q; py : Q }.

(** [math.dist]: the Euclidean distance. *)
Definition dist (p q : Point) : R :=
  sqrt (Q2R ((px p - px q) * (px p - px q) + (py p - py q) * (py p - py q))).

(** [gradient(p, q) = (py - qy) / (px - qx)]. *)
Definition gradient (p q : Point) : result Q :=
  div (py p - py q) (px p - px q).

(** [midpoint( *p) = tuple(map(mean, zip( *p)))] on a list of points; on no
    point at all [Point( *())] raises a [TypeError]. *)
Definition mean (xs : list Q) : Q :=
  fold_left Qplus xs 0 / inject_Z (Z.of_nat (length xs)).

Definition midpoint (ps : list Point) : result Point :=
  match ps with
  | [] => Err TypeError
  | _ => Ok (mkPoint (mean (map px ps)) (mean (map py ps)))
  end.

(** ** Line: [a*x + b*y + c = 0] *)

Record Line := mkLine { la : Q; lb : Q; lc : Q }.

(** [Line.__contains__]. *)
Definition contains (l : Line) (p : Point) : bool :=
  Qle_bool (Qabs (la l * px p + lb l * py p + lc l)) EPSILON.

(** [Line.x]: the x intercept, [None] when [a == 0]. *)
Definition x_intercept (l : Line) : option Point :=
  if Qeq_bool (la l) 0 then None else Some (mkPoint (- lc l / la l) 0).

(** [Line.y]: the y intercept, [None] when [b == 0]. *)
Definition y_intercept (l : Line) : option Point :=
  if Qeq_bool (lb l) 0 then None else Some (mkPoint 0 (- lc l / lb l)).

(** [Line.slope]: [-a / b], or [inf] on [ZeroDivisionError]. *)
Definition slope (l : Line) : fl :=
  if Qeq_bool (lb l) 0 then PInf else Fin (- la l / lb l).

(** [Line.intercept]: [-c / b], or [inf] on [ZeroDivisionError]. *)
Definition intercept (l : Line) : fl :=
  if Qeq_bool (lb l) 0 then PInf else Fin (- lc l / lb l).

(** [Line.__eq__]: same slope and same intercept. *)
Definition line_eqb (s o : Line) : bool :=
  fl_eqb (slope s) (slope o) && fl_eqb (intercept s) (intercept o).

(** [Line.__call__(x=None, y=None)], the evaluation of the line. *)
Definition evaluate (l : Line) (x y : option Q) : result Q :=
  match x, y with
  | Some x, None =>
      if Qeq_bool (lb l) 0 then Ok (- la l * x - lc l)
      else Ok ((- la l * x - lc l) / lb l)
  | None, Some y =>
      if Qeq_bool (la l) 0 then Ok (- lb l * y - lc l)
      else Ok ((- lb l * y - lc l) / la l)
  | _, _ => Err GeometryException
  end.

(** The three possible values of [Line.intersect]. *)
Inductive isect :=
| IPoint (p : Point)
| ILine (l : Line)
| INone.

(** [Line.intersect]. *)
Definition intersect (s o : Line) : result isect :=
  let denom := lb s * la o - la s * lb o in
  if Qeq_bool denom 0 then
    if negb (fl_eqb (intercept s) (intercept o)) then Ok INone
    else Ok (ILine (mkLine (la s) (lb s) (lc s)))
  else
    let x := (lc s * lb o - lb s * lc o) / denom in
    let* y := match y_intercept s with
              | Some _ => evaluate s (Some x) None
              | None => evaluate o (Some x) None
              end in
    Ok (IPoint (mkPoint x y)).

(** [Line.vline] and [Line.hline]. *)
Definition vline (x : Q) : Line := mkLine 1 0 (- x).
Definition hline (y : Q) : Line := mkLine 0 0 y.

(** [Line.from_slope_intercept_form] and [Line.from_point_slope_form]. *)
Definition from_slope_intercept_form (m q : Q) : Line := mkLine m (-1) q.
Definition from_point_slope_form (p : Point) (m : Q) : Line :=
  mkLine m (-1) (py p - m * px p).

(** [Line.from_points]. *)
Definition from_points (a b : Point) : result Line :=
  if Qeq_bool (px a) (px b) then Ok (vline (px a))
  else let* g := gradient a b in Ok (from_point_slope_form a g).

(** ** Segment *)

Record Segment := mkSegment { sA : Point; sB : Point }.

(** [Segment.midpoint]. *)
Definition seg_midpoint (s : Segment) : result Point := midpoint [sA s; sB s].

(** [Segment.perpendicular]: the guard only covers [A.y == B.y]. *)
Definition seg_perpendicular (s : Segment) (p : Point) : result Line :=
  let denom := py (sA s) - py (sB s) in
  if Qeq_bool denom 0 then Ok (vline (px p))
  else let* g := gradient (sA s) (sB s) in
       let* m := div (-1) g in
       Ok (from_point_slope_form p m).

(** [Segment.perpendicular_bisector]. *)
Definition perpendicular_bisector (s : Segment) : result Line :=
  let* m := seg_midpoint s in seg_perpendicular s m.

(** ** Polygon, as its ordered list of vertices [unpack(self)] *)

Definition Polygon := list Point.

(** [Polygon.segments]: [map(Segment, points, points[1:] + points)]. *)
Definition segments (pts : Polygon) : list Segment :=
  zipWith mkSegment pts (tl pts ++ pts).

(** [Polygon.perpendicular_bisectors]. *)
Definition perpendicular_bisectors (pts : Polygon) : result (list Line) :=
  mapM perpendicular_bisector (segments pts).

(** [Polygon.perpendicular_heights]:
    [[s.perpendicular(p) for p, s in zip(points, segments[1:] + segments)]]. *)
Definition perpendicular_heights (pts : Polygon) : result (list Line) :=
  let segs := segments pts in
  mapM (fun ps => seg_perpendicular (snd ps) (fst ps))
       (zipWith pair pts (tl segs ++ segs)).

(** [Polygon.centroid]. *)
Definition centroid (pts : Polygon) : result Point := midpoint pts.

(** [a, b = xs[:2]; return a & b]. *)
Definition intersect_first_two (ls : list Line) : result isect :=
  match ls with
  | l1 :: l2 :: _ => intersect l1 l2
  | _ => Err ValueError
  end.

(** [Polygon.circumcenter]. *)
Definition circumcenter (pts : Polygon) : result isect :=
  if Nat.eqb (length pts) 3 then
    let* bs := perpendicular_bisectors pts in intersect_first_two bs
  else Err AssertionError.

(** [Polygon.orthocenter]. *)
Definition orthocenter (pts : Polygon) : result isect :=
  if Nat.eqb (length pts) 3 then
    let* hs := perpendicular_heights pts in intersect_first_two hs
  else Err AssertionError.

(** [Polygon.euler]: [Line.from_points(self.circumcenter(), self.centroid())].
    A [Line] passed to [from_points] fails to unpack into [(px, py)]
    ([ValueError]); [None] has no attribute [x] ([AttributeError]). *)
Definition euler (pts : Polygon) : result Line :=
  if Nat.eqb (length pts) 3 then
    let* c := circumcenter pts in
    let* g := centroid pts in
    match c with
    | IPoint o => from_points o g
    | ILine _ => Err ValueError
    | INone => Err AttributeError
    end
  else Err AssertionError.

(** ** Further operations of main.py *)

(** [Point.dist(other)] for a [Line]:
    [abs(a*x + b*y + c) / hypot(a, b)]; [hypot(a, b) = sqrt(a*a + b*b)] is
    [0] only for [a = b = 0], where the division raises. *)
Definition point_line_dist (p : Point) (l : Line) : result R :=
  let h := la l * la l + lb l * lb l in
  if Qeq_bool h 0 then Err ZeroDivisionError
  else Ok (Rabs (Q2R (la l * px p + lb l * py p + lc l)) / sqrt (Q2R h))%R.

(** [Line.dist(other)] for a [Point]: the same formula, written in [Line]. *)
Definition line_point_dist (l : Line) (p : Point) : result R :=
  let h := la l * la l + lb l * lb l in
  if Qeq_bool h 0 then Err ZeroDivisionError
  else Ok (Rabs (Q2R (la l * px p + lb l * py p + lc l)) / sqrt (Q2R h))%R.

(** [Line.dist(other)] for a [Line]: [0.0] when the slopes differ, otherwise
    [abs(q1 - q2) / hypot(m, 1)].  For two vertical lines that is
    [abs(inf - inf) / hypot(inf, 1)], a [nan], here [None]. *)
Definition line_dist_line (s o : Line) : option R :=
  let m := slope s in
  if negb (fl_eqb m (slope o)) then Some 0%R
  else match m, intercept s, intercept o with
       | Fin m, Fin q1, Fin q2 => Some (Rabs (Q2R (q1 - q2)) / sqrt (Q2R (m * m) + 1))%R
       | _, _, _ => None
       end.

(** [Line.slope_intercept_form]. *)
Definition slope_intercept_form (l : Line) : fl * fl := (slope l, intercept l).

(** [Line.perpendicular(p)]: [m = -1 / self.slope()], where [-1 / inf] is
    [-0.0] and [-1 / 0.0] raises; then [from_slope_intercept_form(m, p.y - m*p.x)]. *)
Definition line_perpendicular (l : Line) (p : Point) : result Line :=
  let* m := match slope l with
            | PInf => Ok 0
            | Fin s => div (-1) s
            end in
  Ok (from_slope_intercept_form m (py p - m * px p)).

(** [Line.bisect], for lines with finite slopes and intercepts: with a
    vertical line the code goes on computing with [inf] coefficients, which
    this rational model leaves out ([None]).  [from_point_slope_form] applied
    to a [Line] fails on [point.y - slope * point.x] (a bound method minus a
    float, [TypeError]) and applied to [None] on [None.y] ([AttributeError]). *)
Definition bisect (s o : Line) : option (result Line) :=
  match slope_intercept_form s, slope_intercept_form o with
  | (Fin m1, Fin q1), (Fin m2, Fin q2) =>
      let m := mean [m1; m2] in
      if Qeq_bool m1 m2 then Some (Ok (from_slope_intercept_form m (mean [q1; q2])))
      else Some (let* r := intersect s o in
                 match r with
                 | IPoint p => Ok (from_point_slope_form p m)
                 | ILine _ => Err TypeError
                 | INone => Err AttributeError
                 end)
  | _, _ => None
  end.

(** [Segment.length]. *)
Definition seg_length (s : Segment) : R := dist (sA s) (sB s).

(** [Segment.median(other)]: [Segment(other, self.midpoint())]. *)
Definition median (s : Segment) (p : Point) : result Segment :=
  let* m := seg_midpoint s in Ok (mkSegment p m).

(** [Polygon.medians]:
    [[s.median(p) for p, s in zip(points, segments[1:] + segments)]]. *)
Definition medians (pts : Polygon) : result (list Segment) :=
  let segs := segments pts in
  mapM (fun ps => median (snd ps) (fst ps)) (zipWith pair pts (tl segs ++ segs)).

(** [Polygon.perimeter]: [sum(map(dist, points, points[1:] + points))]. *)
Definition perimeter (pts : Polygon) : R :=
  fold_left Rplus (zipWith dist pts (tl pts ++ pts)) 0%R.

(** [Polygon.area]: the shoelace formula
    [abs(sum(px*qy - py*qx for (px, py), (qx, qy) in zip(points, points[1:] + points))) / 2]. *)
Definition area (pts : Polygon) : Q :=
  Qabs (fold_left Qplus
          (zipWith (fun p q => px p * py q - py p * px q) pts (tl pts ++ pts)) 0) / 2.

(** Sums of a list, as [sum] adds them up from the left. *)
Fixpoint qsum (xs : list Q) : Q :=
  match xs with [] => 0 | x :: xs' => x + qsum xs' end.

Fixpoint rsum (xs : list R) : R :=
  match xs with [] => 0%R | x :: xs' => (x + rsum xs')%R end.

(** The summand [px * qy - py * qx] of [Polygon.area]. *)
Definition shoelace_term (p q : Point) : Q := px p * py q - py p * px q.

(** ** Concrete checks (the doctests of main.py) *)

Definition tA := mkPoint 2 12.
Definition tO := mkPoint 0 0.
Definition tB := mkPoint 10 0.
Definition tri : Polygon := [tA; tO; tB].

Definition res_isect_point (r : result isect) : option (Q * Q) :=
  match r with Ok (IPoint p) => Some (Qred (px p), Qred (py p)) | _ => None end.

Example doctest_circumcenter :
  res_isect_point (circumcenter tri) = Some (5, 16 # 3).
Proof. vm_compute. reflexivity. Qed.

Example doctest_orthocenter :
  res_isect_point (orthocenter tri) = Some (2, 4 # 3).
Proof. vm_compute. reflexivity. Qed.

Example doctest_intersect :
  res_isect_point (intersect (from_slope_intercept_form 3 2)
                             (from_slope_intercept_form (-2) 12)) = Some (2, 8).
Proof. vm_compute. reflexivity. Qed.

Example doctest_parallel :
  intersect (from_slope_intercept_form 3 2) (from_slope_intercept_form 3 1) = Ok INone.
Proof. vm_compute. reflexivity. Qed.

Example doctest_area : area tri == 60.
Proof. vm_compute. reflexivity. Qed.

Example doctest_slope_intercept_form :
  fl_eqb (fst (slope_intercept_form (from_slope_intercept_form 2 3))) (Fin 2) &&
  fl_eqb (snd (slope_intercept_form (from_slope_intercept_form 2 3))) (Fin 3) = true.
Proof. vm_compute. reflexivity. Qed.

Example doctest_perpendicular_bisector :
  match perpendicular_bisector (mkSegment tA tB) with
  | Ok l => Qeq_bool (la l) (2 # 3) && Qeq_bool (lb l) (-1) && Qeq_bool (lc l) 2
  | Err _ => false
  end = true.
Proof. vm_compute. reflexivity. Qed.

(** [Segment(O, A).perpendicular_bisector()] on the doctest points. *)
Definition pb_tO_tA : Line :=
  Eval vm_compute in
  match perpendicular_bisector (mkSegment tO tA) with Ok l => l | Err _ => vline 0 end.

(** ** Arithmetic helpers *)

Lemma Qeq_bool_false_iff (x y : Q) : Qeq_bool x y = false <-> ~ x == y.
Proof.
  split.
  - intros H E. apply Qeq_bool_iff in E. congruence.
  - intros H. destruct (Qeq_bool x y) eqn:E; [|reflexivity].
    apply Qeq_bool_iff in E. contradiction.
Qed.

Lemma fl_eqb_refl (u : fl) : fl_eqb u u = true.
Proof. destruct u; simpl; [apply Qeq_bool_refl | reflexivity]. Qed.

(** A point that satisfies the equation exactly is contained in the line. *)
Lemma on_contains (l : Line) (p : Point) :
  la l * px p + lb l * py p + lc l == 0 -> contains l p = true.
Proof.
  intros H. unfold contains. apply Qle_bool_iff.
  rewrite H. unfold EPSILON, Qle; simpl; lia.
Qed.

Lemma line_eqb_refl (l : Line) : line_eqb l l = true.
Proof. unfold line_eqb. rewrite !fl_eqb_refl. reflexivity. Qed.

Tactic Notation "qcase" ident(E) :=
  match goal with
  | |- context [Qeq_bool ?x ?y] =>
      destruct (Qeq_bool x y) eqn:E;
      [apply Qeq_bool_iff in E | apply Qeq_bool_false_iff in E]
  end.

(** ** Claims on [Line] *)

(** A point satisfies the equation of a line exactly. *)
Definition on_line (l : Line) (p : Point) : Prop :=
  la l * px p + lb l * py p + lc l == 0.

(** [Line.intersect] on non-parallel lines: Cramer's rule for [x], then
    back-substitution for [y]; the point solves both equations. *)
Lemma intersect_nonparallel_solution (l1 l2 : Line) :
  ~ (lb l1 * la l2 - la l1 * lb l2 == 0) ->
  let x := (lc l1 * lb l2 - lb l1 * lc l2) / (lb l1 * la l2 - la l1 * lb l2) in
  let y := if Qeq_bool (lb l1) 0 then (- la l2 * x - lc l2) / lb l2
           else (- la l1 * x - lc l1) / lb l1 in
  intersect l1 l2 = Ok (IPoint (mkPoint x y)) /\
  on_line l1 (mkPoint x y) /\ on_line l2 (mkPoint x y).
Proof.
  destruct l1 as [a1 b1 c1], l2 as [a2 b2 c2]; cbv zeta; simpl.
  intros HD.
  unfold intersect, y_intercept, evaluate; simpl.
  apply Qeq_bool_false_iff in HD as HDb. rewrite HDb. apply Qeq_bool_false_iff in HDb.
  qcase E1; simpl.
  - (* [b1 == 0]: back-substitution into [l2], which then has [b2 <> 0] *)
    assert (Hb2 : ~ b2 == 0).
    { intros E2. apply HDb. rewrite E1, E2. ring. }
    assert (Ha1 : ~ a1 == 0).
    { intros E3. apply HDb. rewrite E1, E3. ring. }
    apply Qeq_bool_false_iff in Hb2 as Hb2b. rewrite Hb2b. simpl.
    split; [reflexivity|]. unfold on_line; split; simpl.
    + rewrite E1. field; repeat split; assumption.
    + rewrite E1. field; repeat split; assumption.
  - split; [reflexivity|]. unfold on_line; split; simpl.
    + field; repeat split; assumption.
    + field; repeat split; assumption.
Qed.
(** C1: for non-parallel lines ([denom = b1*a2 - a1*b2] nonzero),
    [l1.intersect(l2)] returns a [Point] whose x-coordinate is given by
    Cramer's rule and whose y-coordinate is obtained by evaluating [l1] at
    [x] when [l1] has a y-intercept ([b1 <> 0]) and [l2] otherwise; the point
    is contained in both lines. *)
Theorem intersect_nonparallel_point (l1 l2 : Line) :
  ~ (lb l1 * la l2 - la l1 * lb l2 == 0) ->
  let x := (lc l1 * lb l2 - lb l1 * lc l2) / (lb l1 * la l2 - la l1 * lb l2) in
  let y := if Qeq_bool (lb l1) 0 then (- la l2 * x - lc l2) / lb l2
           else (- la l1 * x - lc l1) / lb l1 in
  intersect l1 l2 = Ok (IPoint (mkPoint x y)) /\
  contains l1 (mkPoint x y) = true /\ contains l2 (mkPoint x y) = true.
Proof.
  intros HD x y.
  destruct (intersect_nonparallel_solution l1 l2 HD) as [Hi [H1 H2]].
  split; [exact Hi|]. split; apply on_contains; assumption.
Qed.

Lemma intersect_denom_zero (l1 l2 : Line) :
  lb l1 * la l2 - la l1 * lb l2 == 0 ->
  intersect l1 l2 =
  (if fl_eqb (intercept l1) (intercept l2) then Ok (ILine l1) else Ok INone).
Proof.
  intros HD. unfold intersect. apply Qeq_bool_iff in HD. rewrite HD.
  destruct l1; destruct (fl_eqb _ _); reflexivity.
Qed.

(** C2: when [denom = b1*a2 - a1*b2] is zero, [l1.intersect(l2)] returns
    [None] if the intercepts of the lines differ, and otherwise a [Line] equal
    to [l1]; and for every line [l], [l.intersect(l)] returns a line equal to
    [l]. *)
Theorem intersect_equal_slopes (l1 l2 : Line) :
  lb l1 * la l2 - la l1 * lb l2 == 0 ->
  (fl_eqb (intercept l1) (intercept l2) = false -> intersect l1 l2 = Ok INone) /\
  (fl_eqb (intercept l1) (intercept l2) = true ->
     exists l, intersect l1 l2 = Ok (ILine l) /\ line_eqb l l1 = true) /\
  (forall l, exists l', intersect l l = Ok (ILine l') /\ line_eqb l' l = true).
Proof.
  intros HD. split; [|split].
  - intros E. rewrite (intersect_denom_zero _ _ HD), E. reflexivity.
  - intros E. rewrite (intersect_denom_zero _ _ HD), E.
    exists l1. split; [reflexivity | apply line_eqb_refl].
  - intros l. exists l. rewrite intersect_denom_zero by ring.
    rewrite fl_eqb_refl. split; [reflexivity | apply line_eqb_refl].
Qed.

(** C5: [Line.vline(x)] is the triple [(1, 0, -x)] and [Line.hline(y)] the
    triple [(0, 0, y)]; so [hline] leaves [b] at [0] and, unlike the line
    [(0, 1, -y)], has the infinite slope of a vertical line. *)
Theorem vline_hline_coefficients (x y : Q) :
  vline x = mkLine 1 0 (- x) /\ hline y = mkLine 0 0 y /\
  slope (hline y) = PInf /\ slope (vline x) = PInf.
Proof. repeat split. Qed.

(** C6: scaling the coefficients of a line (not both [a] and [b] zero) by a
    nonzero [k] gives a line equal to it under [Line.__eq__]. *)
Theorem line_eq_scaled (a b c k : Q) :
  ~ (a == 0 /\ b == 0) -> ~ k == 0 ->
  line_eqb (mkLine (k * a) (k * b) (k * c)) (mkLine a b c) = true.
Proof.
  intros _ Hk. unfold line_eqb, slope, intercept; simpl.
  destruct (Qeq_bool b 0) eqn:Eb.
  - apply Qeq_bool_iff in Eb.
    assert (Ekb : Qeq_bool (k * b) 0 = true).
    { apply Qeq_bool_iff. rewrite Eb. ring. }
    rewrite Ekb. reflexivity.
  - apply Qeq_bool_false_iff in Eb.
    assert (Ekb : Qeq_bool (k * b) 0 = false).
    { apply Qeq_bool_false_iff. intros E. apply Qmult_integral in E; tauto. }
    rewrite Ekb. simpl. apply andb_true_intro; split; apply Qeq_bool_iff;
      field; split; assumption.
Qed.

(** C7, as stated: whenever exactly [x] is supplied, the returned value [y]
    solves [a*x + b*y + c = 0].  False on the vertical line [x - 1 = 0]
    evaluated at [x = 5]: [Line.__call__] returns [-a*x - c = -4]. *)
Lemma evaluate_solves_counterexample :
  ~ (forall (l : Line) (x v : Q), evaluate l (Some x) None = Ok v ->
       la l * x + lb l * v + lc l == 0).
Proof.
  intros H. specialize (H (mkLine 1 0 (-1)) 5 (-4) eq_refl).
  vm_compute in H. discriminate H.
Qed.

(** C7, amended: [Line.__call__] raises (a [GeometryException]) exactly when
    both or neither of [x] and [y] are supplied.  Given only [x] it returns
    the [y] solving [a*x + b*y + c = 0] when [b <> 0], and [-a*x - c] when
    [b = 0]; symmetrically, given only [y] it returns the solving [x] when
    [a <> 0], and [-b*y - c] when [a = 0]. *)
Theorem evaluate_spec (l : Line) (x y : option Q) :
  (evaluate l x y = Err GeometryException <-> (x = None <-> y = None)) /\
  (forall e, evaluate l x y = Err e -> e = GeometryException) /\
  (forall x0 v, evaluate l (Some x0) None = Ok v ->
     if Qeq_bool (lb l) 0 then v = - la l * x0 - lc l
     else la l * x0 + lb l * v + lc l == 0) /\
  (forall y0 v, evaluate l None (Some y0) = Ok v ->
     if Qeq_bool (la l) 0 then v = - lb l * y0 - lc l
     else la l * v + lb l * y0 + lc l == 0).
Proof.
  split; [|split; [|split]].
  - unfold evaluate. destruct x, y; try destruct (Qeq_bool _ 0);
      split; intros H; try discriminate; try reflexivity;
      try (split; intros; first [reflexivity | discriminate]);
      destruct H as [H1 H2];
      first [ pose proof (H1 eq_refl) as H3 | pose proof (H2 eq_refl) as H3 ];
      discriminate H3.
  - unfold evaluate. destruct x, y; try (destruct (Qeq_bool _ 0));
      intros e H; congruence.
  - intros x0 v. unfold evaluate. qcase E; intros H; injection H as <-.
    + reflexivity.
    + field. exact E.
  - intros y0 v. unfold evaluate. qcase E; intros H; injection H as <-.
    + reflexivity.
    + field. exact E.
Qed.

(** C8: [Line.from_points(p, q)] is the vertical line [x = p.x] when
    [p.x == q.x] and otherwise the line through [p] with slope
    [(p.y - q.y)/(p.x - q.x)]; it contains both [p] and [q] (this holds for
    all points, distinct or not). *)
Theorem from_points_contains (p q : Point) :
  exists l, from_points p q = Ok l /\
    l = (if Qeq_bool (px p) (px q) then vline (px p)
         else from_point_slope_form p ((py p - py q) / (px p - px q))) /\
    contains l p = true /\ contains l q = true.
Proof.
  unfold from_points. qcase E.
  - eexists; split; [reflexivity|]. split; [reflexivity|].
    split; apply on_contains; simpl; [ring | rewrite E; ring].
  - unfold gradient, div.
    assert (Ed : Qeq_bool (px p - px q) 0 = false).
    { apply Qeq_bool_false_iff. intros H. apply E.
      apply (Qplus_inj_r _ _ (- px q)). rewrite H. ring. }
    rewrite Ed. simpl. eexists; split; [reflexivity|]. split; [reflexivity|].
    apply Qeq_bool_false_iff in Ed.
    split; apply on_contains; simpl; [ring | field; exact Ed].
Qed.

(** C9: for a vertical segment ([A.x == B.x], [A.y <> B.y]),
    [Segment.perpendicular(p)] and hence [Segment.perpendicular_bisector()]
    raise [ZeroDivisionError]: the guard covers only [A.y == B.y], and
    [gradient] then divides by [A.x - B.x = 0]. *)
Theorem vertical_segment_perpendicular_raises (A B P : Point) :
  px A == px B -> ~ py A == py B ->
  seg_perpendicular (mkSegment A B) P = Err ZeroDivisionError /\
  perpendicular_bisector (mkSegment A B) = Err ZeroDivisionError.
Proof.
  intros Hx Hy.
  assert (Hperp : forall P, seg_perpendicular (mkSegment A B) P = Err ZeroDivisionError).
  { intros P0. unfold seg_perpendicular, gradient, div; simpl.
    assert (Ey : Qeq_bool (py A - py B) 0 = false).
    { apply Qeq_bool_false_iff. intros H. apply Hy.
      apply (Qplus_inj_r _ _ (- py B)). rewrite H. ring. }
    assert (Ex : Qeq_bool (px A - px B) 0 = true).
    { apply Qeq_bool_iff. rewrite Hx. ring. }
    rewrite Ey, Ex. reflexivity. }
  split; [apply Hperp|].
  unfold perpendicular_bisector, seg_midpoint, midpoint; simpl. apply Hperp.
Qed.

(** C10: any two vertical lines [(a1, 0, c1)] and [(a2, 0, c2)] compare
    equal (both slopes and both intercepts are [inf]), whatever their
    x-intercepts, and their intersection is the identical-line case. *)
Theorem vertical_lines_equal (a1 c1 a2 c2 : Q) :
  line_eqb (mkLine a1 0 c1) (mkLine a2 0 c2) = true /\
  intersect (mkLine a1 0 c1) (mkLine a2 0 c2) = Ok (ILine (mkLine a1 0 c1)).
Proof.
  split; [reflexivity|].
  rewrite intersect_denom_zero by (simpl; ring). reflexivity.
Qed.

(** ** List lemmas for [Polygon] *)

Section PolygonLists.
Local Open Scope nat_scope.

Lemma nth_error_zipWith {A B C : Type} (f : A -> B -> C) xs ys i :
  nth_error (zipWith f xs ys) i =
  match nth_error xs i, nth_error ys i with
  | Some x, Some y => Some (f x y)
  | _, _ => None
  end.
Proof.
  revert ys i. induction xs as [|x xs IH]; intros [|y ys] [|i]; simpl;
    try reflexivity; try (destruct (nth_error xs i); reflexivity).
  apply IH.
Qed.

Lemma length_zipWith {A B C : Type} (f : A -> B -> C) xs ys :
  length (zipWith f xs ys) = Nat.min (length xs) (length ys).
Proof.
  revert ys. induction xs as [|x xs IH]; intros [|y ys]; simpl; auto.
Qed.

(** [points[1:] + points], read at [i], is the vertex [(i + 1) mod n]. *)
Lemma nth_error_tl_app {A : Type} (l : list A) i :
  i < length l -> nth_error (tl l ++ l) i = nth_error l ((i + 1) mod length l).
Proof.
  destruct l as [|x l']; cbn [tl length]; [lia|]. intros Hi.
  destruct (Nat.eq_dec i (length l')) as [->|Hne].
  - rewrite nth_error_app2 by lia. rewrite Nat.sub_diag.
    replace (length l' + 1) with (S (length l')) by lia.
    rewrite Nat.Div0.mod_same. reflexivity.
  - rewrite nth_error_app1 by lia.
    rewrite Nat.mod_small by lia. rewrite Nat.add_1_r. reflexivity.
Qed.

Lemma length_tl_app {A : Type} (l : list A) : length l <= length (tl l ++ l).
Proof. rewrite length_app. lia. Qed.

Lemma mapM_length {A B : Type} (f : A -> result B) xs ys :
  mapM f xs = Ok ys -> length ys = length xs.
Proof.
  revert ys. induction xs as [|x xs IH]; simpl; intros ys H.
  - injection H as <-. reflexivity.
  - destruct (f x); [|discriminate]. simpl in H.
    destruct (mapM f xs) as [ys'|]; [|discriminate]. simpl in H.
    injection H as <-. simpl. f_equal. apply IH. reflexivity.
Qed.

Lemma mapM_nth_error {A B : Type} (f : A -> result B) xs ys i x :
  mapM f xs = Ok ys -> nth_error xs i = Some x ->
  exists y, f x = Ok y /\ nth_error ys i = Some y.
Proof.
  revert ys i. induction xs as [|x' xs IH]; simpl; intros ys i H Hi.
  - destruct i; discriminate.
  - destruct (f x') as [y'|] eqn:Ef; [|discriminate]. simpl in H.
    destruct (mapM f xs) as [ys'|] eqn:Em; [|discriminate]. simpl in H.
    injection H as <-. destruct i as [|i]; simpl in Hi.
    + injection Hi as <-. exists y'. split; [exact Ef | reflexivity].
    + apply (IH ys' i eq_refl Hi).
Qed.

Lemma length_segments (pts : Polygon) : length (segments pts) = length pts.
Proof.
  unfold segments. rewrite length_zipWith.
  pose proof (length_tl_app pts). lia.
Qed.

(** Edge [j] of the polygon goes from vertex [j] to vertex [(j + 1) mod n]. *)
Lemma nth_error_segments (pts : Polygon) j :
  j < length pts ->
  exists v w, nth_error pts j = Some v /\
    nth_error pts ((j + 1) mod length pts) = Some w /\
    nth_error (segments pts) j = Some (mkSegment v w).
Proof.
  intros Hj. unfold segments. rewrite nth_error_zipWith, nth_error_tl_app by exact Hj.
  destruct (nth_error pts j) as [v|] eqn:Ev;
    [| apply nth_error_None in Ev; lia].
  destruct (nth_error pts ((j + 1) mod length pts)) as [w|] eqn:Ew.
  - exists v, w. auto.
  - apply nth_error_None in Ew.
    pose proof (Nat.mod_upper_bound (j + 1) (length pts)). lia.
Qed.

End PolygonLists.

(** ** [Segment.perpendicular] *)

(** Line [(a, b, c)] is perpendicular to segment [s]: its normal [(a, b)] is
    parallel to the direction [B - A] of [s]. *)
Definition perpendicular_to (l : Line) (s : Segment) : bool :=
  Qeq_bool (la l * (py (sB s) - py (sA s)) - lb l * (px (sB s) - px (sA s))) 0.

Lemma Qminus_eq0 (x y : Q) : x - y == 0 <-> x == y.
Proof.
  split; intros H.
  - apply (Qplus_inj_r _ _ (- y)). rewrite H. ring.
  - rewrite H. ring.
Qed.

(** What [Segment.perpendicular(p)] returns, when it returns: a line
    through [p] perpendicular to the segment. *)
Lemma seg_perpendicular_ok (A B P : Point) (l : Line) :
  seg_perpendicular (mkSegment A B) P = Ok l ->
  la l * px P + lb l * py P + lc l == 0 /\
  la l * (py B - py A) - lb l * (px B - px A) == 0.
Proof.
  unfold seg_perpendicular, gradient, div; cbn [sA sB].
  qcase Ey.
  - intros H. injection H as <-. cbn [la lb lc vline]. split; [ring|].
    apply (proj1 (Qminus_eq0 (py A) (py B))) in Ey. rewrite Ey. ring.
  - qcase Ex; [discriminate|]. cbn [bind]. qcase Eg; [discriminate|]. cbn [bind].
    intros H. injection H as <-. cbn [la lb lc from_point_slope_form]. split; [ring|].
    field. split; assumption.
Qed.

(** ** Claims on [Polygon.perpendicular_heights] *)

(** C4, as stated: the height line produced for edge [0] (from vertex [0] to
    vertex [1]) passes through vertex [1] and is perpendicular to edge [0].
    False on the doctest triangle [(2,12), (0,0), (10,0)]: none of the three
    lines of [perpendicular_heights()] passes through vertex [1] = [(0,0)]
    perpendicularly to edge [0]. *)
Lemma heights_pairing_counterexample :
  match perpendicular_heights tri with
  | Ok hs => ~ (exists h, In h hs /\ contains h tO = true /\
                          perpendicular_to h (mkSegment tA tO) = true)
  | Err _ => False
  end.
Proof.
  remember (perpendicular_heights tri) as r eqn:E.
  vm_compute in E. subst r.
  intros [h [Hin [Hc Hp]]].
  destruct Hin as [<- | [<- | [<- | []]]]; vm_compute in Hc, Hp; discriminate.
Qed.

(** C4, amended: [perpendicular_heights()] returns, when it returns, one line
    per vertex; line [i] passes through vertex [i] and is perpendicular to
    edge [(i + 1) mod n], the segment from vertex [(i + 1) mod n] to vertex
    [(i + 2) mod n].  So edge [j] is paired with vertex [j - 1] (one position
    behind), which for a triangle is the vertex opposite edge [j]. *)
Theorem perpendicular_heights_pairing (pts : Polygon) (hs : list Line) :
  perpendicular_heights pts = Ok hs ->
  length hs = length pts /\
  forall i, (i < length pts)%nat ->
    exists h v w w',
      nth_error hs i = Some h /\ nth_error pts i = Some v /\
      nth_error pts ((i + 1) mod length pts) = Some w /\
      nth_error pts (((i + 1) mod length pts + 1) mod length pts) = Some w' /\
      nth_error (segments pts) ((i + 1) mod length pts) = Some (mkSegment w w') /\
      contains h v = true /\ perpendicular_to h (mkSegment w w') = true.
Proof.
  unfold perpendicular_heights. intros H.
  pose proof (length_segments pts) as Hls.
  split.
  - rewrite (mapM_length _ _ _ H), length_zipWith.
    pose proof (length_tl_app (segments pts)). lia.
  - intros i Hi.
    set (n := length pts) in *.
    assert (Hj : ((i + 1) mod n < n)%nat) by (apply Nat.mod_upper_bound; lia).
    destruct (nth_error_segments pts ((i + 1) mod n) Hj) as (w & w' & Hw & Hw' & Hs).
    destruct (nth_error pts i) as [v|] eqn:Hv; [| apply nth_error_None in Hv; lia].
    assert (Hz : nth_error (zipWith pair pts (tl (segments pts) ++ segments pts)) i
                 = Some (v, mkSegment w w')).
    { rewrite nth_error_zipWith, Hv, nth_error_tl_app by lia.
      rewrite Hls. fold n. rewrite Hs. reflexivity. }
    destruct (mapM_nth_error _ _ _ _ _ H Hz) as (h & Hh & Hhs).
    cbn [fst snd] in Hh.
    destruct (seg_perpendicular_ok _ _ _ _ Hh) as [Hon Hperp].
    exists h, v, w, w'. repeat split; auto.
    + apply on_contains. exact Hon.
    + unfold perpendicular_to. apply Qeq_bool_iff. exact Hperp.
Qed.

(** ** Triangle centres *)

Lemma Qdiv_eq0_iff (x d : Q) : ~ d == 0 -> (x / d == 0 <-> x == 0).
Proof.
  intros Hd. split; intros H.
  - setoid_replace x with (x / d * d) by (field; exact Hd). rewrite H. ring.
  - rewrite H. field. exact Hd.
Qed.

Lemma Qmult_eq0_r (d u : Q) : ~ d == 0 -> d * u == 0 -> u == 0.
Proof. intros Hd H. apply Qmult_integral in H. tauto. Qed.

(** [Line.intersect] returns a point only for non-parallel lines, and the
    point solves both equations. *)
Lemma intersect_point_solution (l1 l2 : Line) (p : Point) :
  intersect l1 l2 = Ok (IPoint p) ->
  ~ (lb l1 * la l2 - la l1 * lb l2 == 0) /\ on_line l1 p /\ on_line l2 p.
Proof.
  intros H.
  destruct (Qeq_bool (lb l1 * la l2 - la l1 * lb l2) 0) eqn:E.
  - apply Qeq_bool_iff in E. rewrite (intersect_denom_zero _ _ E) in H.
    destruct (fl_eqb _ _); discriminate.
  - apply Qeq_bool_false_iff in E.
    destruct (intersect_nonparallel_solution l1 l2 E) as [Hi [H1 H2]].
    rewrite Hi in H. injection H as <-. auto.
Qed.

(** Two non-parallel lines have at most one common point. *)
Lemma on_line_unique (l1 l2 : Line) (p q : Point) :
  ~ (lb l1 * la l2 - la l1 * lb l2 == 0) ->
  on_line l1 p -> on_line l2 p -> on_line l1 q -> on_line l2 q ->
  px p == px q /\ py p == py q.
Proof.
  destruct l1 as [a1 b1 c1], l2 as [a2 b2 c2], p as [x1 y1], q as [x2 y2].
  unfold on_line; cbn [la lb lc px py]. intros HD H1p H2p H1q H2q.
  split; apply Qminus_eq0; apply (Qmult_eq0_r _ _ HD).
  - setoid_replace ((b1 * a2 - a1 * b2) * (x1 - x2)) with
      (b1 * ((a2 * x1 + b2 * y1 + c2) - (a2 * x2 + b2 * y2 + c2))
       - b2 * ((a1 * x1 + b1 * y1 + c1) - (a1 * x2 + b1 * y2 + c1))) by ring.
    rewrite H1p, H2p, H1q, H2q. ring.
  - setoid_replace ((b1 * a2 - a1 * b2) * (y1 - y2)) with
      (a2 * ((a1 * x1 + b1 * y1 + c1) - (a1 * x2 + b1 * y2 + c1))
       - a1 * ((a2 * x1 + b2 * y1 + c2) - (a2 * x2 + b2 * y2 + c2))) by ring.
    rewrite H1p, H2p, H1q, H2q. ring.
Qed.

(** For a non-degenerate segment [A B], the line [Segment.perpendicular(P)]
    is the set of points [X] with [(X - P) . (B - A) = 0]. *)
Lemma seg_perpendicular_dot (A B P : Point) (l : Line) :
  seg_perpendicular (mkSegment A B) P = Ok l ->
  ~ (px A == px B /\ py A == py B) ->
  forall X, on_line l X <->
    (px X - px P) * (px B - px A) + (py X - py P) * (py B - py A) == 0.
Proof.
  unfold seg_perpendicular, gradient, div; cbn [sA sB].
  qcase Ey.
  - intros H HAB X. injection H as <-. unfold on_line; cbn [la lb lc vline].
    apply (proj1 (Qminus_eq0 (py A) (py B))) in Ey.
    assert (Hx : ~ px B - px A == 0).
    { intros Hx. apply HAB. split; [|exact Ey].
      symmetry. apply Qminus_eq0. exact Hx. }
    setoid_replace (1 * px X + 0 * py X + - px P) with (px X - px P) by ring.
    setoid_replace ((px X - px P) * (px B - px A) + (py X - py P) * (py B - py A))
      with ((px B - px A) * (px X - px P)) by (rewrite Ey; ring).
    split; intros H.
    + rewrite H. ring.
    + exact (Qmult_eq0_r _ _ Hx H).
  - qcase Ex; [discriminate|]. cbn [bind]. qcase Eg; [discriminate|]. cbn [bind].
    intros H _ X. injection H as <-. unfold on_line; cbn [la lb lc from_point_slope_form].
    setoid_replace ((-1) / ((py A - py B) / (px A - px B)) * px X + -1 * py X
                    + (py P - (-1) / ((py A - py B) / (px A - px B)) * px P))
      with (((px X - px P) * (px B - px A) + (py X - py P) * (py B - py A))
            / (py A - py B)) by (field; repeat split; assumption).
    apply Qdiv_eq0_iff. exact Ey.
Qed.

(** [Line.from_points(O, G)] always returns a line, and that line contains
    every point of the form [O + t (G - O)]. *)
Lemma from_points_through (O G : Point) :
  exists e, from_points O G = Ok e /\
    forall X t, px X == px O + t * (px G - px O) ->
                py X == py O + t * (py G - py O) -> on_line e X.
Proof.
  unfold from_points, gradient, div. qcase E.
  - eexists; split; [reflexivity|]. intros X t Hx _.
    unfold on_line; cbn [la lb lc vline]. rewrite Hx, <- E. ring.
  - assert (Ed : Qeq_bool (px O - px G) 0 = false).
    { apply Qeq_bool_false_iff. intros H. apply E. apply Qminus_eq0. exact H. }
    rewrite Ed. cbn [bind]. apply Qeq_bool_false_iff in Ed.
    eexists; split; [reflexivity|]. intros X t Hx Hy.
    unfold on_line; cbn [la lb lc from_point_slope_form]. rewrite Hx, Hy.
    field. exact Ed.
Qed.

Lemma mean2 (x y : Q) : mean [x; y] == (x + y) / 2.
Proof.
  unfold mean. cbn [fold_left length].
  change (inject_Z (Z.of_nat 2)) with 2. field.
Qed.

Lemma mean3 (x y z : Q) : mean [x; y; z] == (x + y + z) / 3.
Proof.
  unfold mean. cbn [fold_left length].
  change (inject_Z (Z.of_nat 3)) with 3. field.
Qed.

Lemma mean3_mul (x y z : Q) : 3 * mean [x; y; z] == x + y + z.
Proof. rewrite mean3. field. Qed.

(** [Segment.perpendicular_bisector] is [Segment.perpendicular] through the
    midpoint. *)
Lemma perpendicular_bisector_midpoint (A B : Point) (l : Line) :
  perpendicular_bisector (mkSegment A B) = Ok l ->
  seg_perpendicular (mkSegment A B)
    (mkPoint (mean [px A; px B]) (mean [py A; py B])) = Ok l.
Proof. intros H. exact H. Qed.

Lemma circumcenter_triangle (A B C : Point) (r : isect) :
  circumcenter [A; B; C] = Ok r ->
  exists b0 b1 b2,
    perpendicular_bisector (mkSegment A B) = Ok b0 /\
    perpendicular_bisector (mkSegment B C) = Ok b1 /\
    perpendicular_bisector (mkSegment C A) = Ok b2 /\
    intersect b0 b1 = Ok r.
Proof.
  unfold circumcenter, perpendicular_bisectors, segments.
  cbn [length Nat.eqb tl app zipWith mapM].
  destruct (perpendicular_bisector (mkSegment A B)) as [b0|]; cbn [bind]; [|discriminate].
  destruct (perpendicular_bisector (mkSegment B C)) as [b1|]; cbn [bind]; [|discriminate].
  destruct (perpendicular_bisector (mkSegment C A)) as [b2|]; cbn [bind]; [|discriminate].
  intros H. exists b0, b1, b2. auto.
Qed.

Lemma orthocenter_triangle (A B C : Point) (r : isect) :
  orthocenter [A; B; C] = Ok r ->
  exists h0 h1 h2,
    seg_perpendicular (mkSegment B C) A = Ok h0 /\
    seg_perpendicular (mkSegment C A) B = Ok h1 /\
    seg_perpendicular (mkSegment A B) C = Ok h2 /\
    intersect h0 h1 = Ok r.
Proof.
  unfold orthocenter, perpendicular_heights, segments.
  cbn [length Nat.eqb tl app zipWith mapM fst snd].
  destruct (seg_perpendicular (mkSegment B C) A) as [h0|]; cbn [bind]; [|discriminate].
  destruct (seg_perpendicular (mkSegment C A) B) as [h1|]; cbn [bind]; [|discriminate].
  destruct (seg_perpendicular (mkSegment A B) C) as [h2|]; cbn [bind]; [|discriminate].
  intros H. exists h0, h1, h2. auto.
Qed.

Lemma centroid_triangle (A B C : Point) :
  centroid [A; B; C] =
  Ok (mkPoint (mean [px A; px B; px C]) (mean [py A; py B; py C])).
Proof. reflexivity. Qed.

Lemma euler_triangle (A B C O : Point) :
  circumcenter [A; B; C] = Ok (IPoint O) ->
  euler [A; B; C] =
  from_points O (mkPoint (mean [px A; px B; px C]) (mean [py A; py B; py C])).
Proof.
  intros H. unfold euler. cbn [length Nat.eqb]. rewrite H. reflexivity.
Qed.

(** Three points that are not on one line. *)
Definition noncollinear (A B C : Point) : Prop :=
  ~ ((px B - px A) * (py C - py A) - (py B - py A) * (px C - px A) == 0).

Lemma noncollinear_distinct (A B C : Point) :
  noncollinear A B C ->
  ~ (px A == px B /\ py A == py B) /\ ~ (px B == px C /\ py B == py C) /\
  ~ (px C == px A /\ py C == py A).
Proof.
  unfold noncollinear. intros H.
  split; [|split]; intros [E1 E2]; apply H.
  - rewrite E1, E2. ring.
  - rewrite E1, E2. ring.
  - rewrite E1, E2. ring.
Qed.

Lemma sqrt_4_mult (x : R) : sqrt (4 * x) = (2 * sqrt x)%R.
Proof.
  rewrite sqrt_mult_alt by lra.
  replace 4%R with (2 * 2)%R by lra. rewrite sqrt_square by lra. reflexivity.
Qed.

(** C3: in a triangle (three non-collinear vertices) for which
    [circumcenter()] and [orthocenter()] return points, the centroid, the
    circumcenter and the orthocenter all lie on the line [euler()], and
    [2 * dist(centroid, circumcenter) = dist(centroid, orthocenter)]. *)
Theorem euler_line_collinear_ratio (A B C O H : Point) :
  noncollinear A B C ->
  circumcenter [A; B; C] = Ok (IPoint O) ->
  orthocenter [A; B; C] = Ok (IPoint H) ->
  exists G e,
    centroid [A; B; C] = Ok G /\ euler [A; B; C] = Ok e /\
    contains e G = true /\ contains e O = true /\ contains e H = true /\
    (2 * dist G O)%R = dist G H.
Proof.
  intros Hnc Hcc Hoc.
  destruct (noncollinear_distinct _ _ _ Hnc) as (DAB & DBC & DCA).
  destruct (circumcenter_triangle _ _ _ _ Hcc) as (b0 & b1 & b2 & E0 & E1 & _ & Ei).
  destruct (intersect_point_solution _ _ _ Ei) as (_ & HO0 & HO1).
  apply perpendicular_bisector_midpoint in E0, E1.
  apply (seg_perpendicular_dot _ _ _ _ E0 DAB) in HO0.
  apply (seg_perpendicular_dot _ _ _ _ E1 DBC) in HO1.
  cbn [px py] in HO0, HO1. rewrite !mean2 in HO0, HO1.
  destruct (orthocenter_triangle _ _ _ _ Hoc) as (h0 & h1 & _ & F0 & F1 & _ & Fi).
  destruct (intersect_point_solution _ _ _ Fi) as (HD & HH0 & HH1).
  (* the candidate [3 G - 2 O] lies on both heights *)
  assert (HH'0 : on_line h0 (mkPoint (3 * mean [px A; px B; px C] - 2 * px O)
                                     (3 * mean [py A; py B; py C] - 2 * py O))).
  { apply (seg_perpendicular_dot _ _ _ _ F0 DBC). cbn [px py]. rewrite !mean3_mul.
    match type of HO1 with ?e1 == 0 =>
      transitivity (-2 * e1); [field | rewrite HO1; ring] end. }
  assert (HH'1 : on_line h1 (mkPoint (3 * mean [px A; px B; px C] - 2 * px O)
                                     (3 * mean [py A; py B; py C] - 2 * py O))).
  { apply (seg_perpendicular_dot _ _ _ _ F1 DCA). cbn [px py]. rewrite !mean3_mul.
    match type of HO0 with ?e0 == 0 => match type of HO1 with ?e1 == 0 =>
      transitivity (2 * (e0 + e1)); [field | rewrite HO0, HO1; ring] end end. }
  destruct (on_line_unique _ _ _ _ HD HH0 HH1 HH'0 HH'1) as [Hx Hy].
  cbn [px py] in Hx, Hy.
  destruct (from_points_through O
              (mkPoint (mean [px A; px B; px C]) (mean [py A; py B; py C])))
    as (e & He & Hon).
  eexists; exists e. split; [apply centroid_triangle|].
  split; [rewrite (euler_triangle _ _ _ _ Hcc); exact He|].
  split; [|split; [|split]].
  - apply on_contains, (Hon _ 1); cbn [px py]; ring.
  - apply on_contains, (Hon _ 0); ring.
  - apply on_contains, (Hon _ 3); cbn [px py]; [rewrite Hx | rewrite Hy]; ring.
  - unfold dist; cbn [px py].
    assert (Hsq :
      (mean [px A; px B; px C] - px H) * (mean [px A; px B; px C] - px H)
      + (mean [py A; py B; py C] - py H) * (mean [py A; py B; py C] - py H)
      == 4 * ((mean [px A; px B; px C] - px O) * (mean [px A; px B; px C] - px O)
              + (mean [py A; py B; py C] - py O) * (mean [py A; py B; py C] - py O))).
    { rewrite Hx, Hy. ring. }
    rewrite (Qeq_eqR _ _ Hsq), Q2R_mult.
    replace (Q2R 4) with 4%R by (unfold Q2R; cbn [Qnum Qden]; field).
    rewrite sqrt_4_mult. reflexivity.
Qed.

(** ** Witnesses: each hypothesis of a claim's theorem holds on the doctest
    inputs of main.py. *)

(** The doctest lines [a: y = 3x + 2], [b: y = -2x + 12], [c: y = 3x + 1]. *)
Definition ln_a := from_slope_intercept_form 3 2.
Definition ln_b := from_slope_intercept_form (-2) 12.
Definition ln_c := from_slope_intercept_form 3 1.

Lemma intersect_nonparallel_point_witness :
  ~ (lb ln_a * la ln_b - la ln_a * lb ln_b == 0) /\
  (let x := (lc ln_a * lb ln_b - lb ln_a * lc ln_b)
            / (lb ln_a * la ln_b - la ln_a * lb ln_b) in
   let y := if Qeq_bool (lb ln_a) 0 then (- la ln_b * x - lc ln_b) / lb ln_b
            else (- la ln_a * x - lc ln_a) / lb ln_a in
   intersect ln_a ln_b = Ok (IPoint (mkPoint x y)) /\
   contains ln_a (mkPoint x y) = true /\ contains ln_b (mkPoint x y) = true).
Proof.
  assert (HD : ~ (lb ln_a * la ln_b - la ln_a * lb ln_b == 0)).
  { intros H. vm_compute in H. discriminate H. }
  split; [exact HD | exact (intersect_nonparallel_point ln_a ln_b HD)].
Defined.

Lemma intersect_equal_slopes_witness :
  lb ln_a * la ln_c - la ln_a * lb ln_c == 0 /\
  (fl_eqb (intercept ln_a) (intercept ln_c) = false -> intersect ln_a ln_c = Ok INone) /\
  (fl_eqb (intercept ln_a) (intercept ln_c) = true ->
     exists l, intersect ln_a ln_c = Ok (ILine l) /\ line_eqb l ln_a = true) /\
  (forall l, exists l', intersect l l = Ok (ILine l') /\ line_eqb l' l = true).
Proof.
  assert (HD : lb ln_a * la ln_c - la ln_a * lb ln_c == 0) by (vm_compute; reflexivity).
  split; [exact HD | exact (intersect_equal_slopes ln_a ln_c HD)].
Defined.

Lemma line_eq_scaled_witness :
  ~ (1 == 0 /\ 3 == 0) /\ ~ (-4) == 0 /\
  line_eqb (mkLine ((-4) * 1) ((-4) * 3) ((-4) * 2)) (mkLine 1 3 2) = true.
Proof.
  assert (H1 : ~ (1 == 0 /\ 3 == 0)).
  { intros [H _]. vm_compute in H. discriminate H. }
  assert (H2 : ~ (-4) == 0).
  { intros H. vm_compute in H. discriminate H. }
  split; [exact H1 | split; [exact H2 | exact (line_eq_scaled 1 3 2 (-4) H1 H2)]].
Defined.

Lemma vertical_segment_perpendicular_raises_witness :
  px (mkPoint 1 2) == px (mkPoint 1 5) /\ ~ py (mkPoint 1 2) == py (mkPoint 1 5) /\
  seg_perpendicular (mkSegment (mkPoint 1 2) (mkPoint 1 5)) (mkPoint 0 0)
    = Err ZeroDivisionError /\
  perpendicular_bisector (mkSegment (mkPoint 1 2) (mkPoint 1 5)) = Err ZeroDivisionError.
Proof.
  assert (Hx : px (mkPoint 1 2) == px (mkPoint 1 5)) by (vm_compute; reflexivity).
  assert (Hy : ~ py (mkPoint 1 2) == py (mkPoint 1 5)).
  { intros H. vm_compute in H. discriminate H. }
  split; [exact Hx | split; [exact Hy |]].
  exact (vertical_segment_perpendicular_raises _ _ (mkPoint 0 0) Hx Hy).
Defined.

(** The values [Polygon.perpendicular_heights], [circumcenter] and
    [orthocenter] compute on the doctest triangle. *)
Definition tri_heights : list Line :=
  Eval vm_compute in
  match perpendicular_heights tri with Ok hs => hs | Err _ => [] end.

Definition tri_circumcenter : Point :=
  Eval vm_compute in
  match circumcenter tri with Ok (IPoint p) => p | _ => tO end.

Definition tri_orthocenter : Point :=
  Eval vm_compute in
  match orthocenter tri with Ok (IPoint p) => p | _ => tO end.

Lemma perpendicular_heights_pairing_witness :
  perpendicular_heights tri = Ok tri_heights /\
  length tri_heights = length tri /\
  forall i, (i < length tri)%nat ->
    exists h v w w',
      nth_error tri_heights i = Some h /\ nth_error tri i = Some v /\
      nth_error tri ((i + 1) mod length tri) = Some w /\
      nth_error tri (((i + 1) mod length tri + 1) mod length tri) = Some w' /\
      nth_error (segments tri) ((i + 1) mod length tri) = Some (mkSegment w w') /\
      contains h v = true /\ perpendicular_to h (mkSegment w w') = true.
Proof.
  assert (H : perpendicular_heights tri = Ok tri_heights) by (vm_compute; reflexivity).
  split; [exact H | exact (perpendicular_heights_pairing tri tri_heights H)].
Defined.

Lemma euler_line_collinear_ratio_witness :
  noncollinear tA tO tB /\
  circumcenter [tA; tO; tB] = Ok (IPoint tri_circumcenter) /\
  orthocenter [tA; tO; tB] = Ok (IPoint tri_orthocenter) /\
  exists G e,
    centroid [tA; tO; tB] = Ok G /\ euler [tA; tO; tB] = Ok e /\
    contains e G = true /\ contains e tri_circumcenter = true /\
    contains e tri_orthocenter = true /\
    (2 * dist G tri_circumcenter)%R = dist G tri_orthocenter.
Proof.
  assert (Hn : noncollinear tA tO tB).
  { unfold noncollinear. intros H. vm_compute in H. discriminate H. }
  assert (Hc : circumcenter [tA; tO; tB] = Ok (IPoint tri_circumcenter))
    by (vm_compute; reflexivity).
  assert (Ho : orthocenter [tA; tO; tB] = Ok (IPoint tri_orthocenter))
    by (vm_compute; reflexivity).
  split; [exact Hn | split; [exact Hc | split; [exact Ho |]]].
  exact (euler_line_collinear_ratio _ _ _ _ _ Hn Hc Ho).
Defined.

(** * Further properties of main.py *)

(** ** Real-number helpers *)

Lemma Q2R_zero : Q2R 0 = 0%R.
Proof. unfold Q2R; cbn [Qnum Qden]. lra. Qed.

Lemma Q2R_eq0 (x : Q) : Q2R x = 0%R <-> x == 0.
Proof.
  split; intros H.
  - apply eqR_Qeq. rewrite H, Q2R_zero. reflexivity.
  - rewrite (Qeq_eqR _ _ H). apply Q2R_zero.
Qed.

Lemma Q2R_sumsq (a b : Q) : Q2R (a * a + b * b) = (Q2R a * Q2R a + Q2R b * Q2R b)%R.
Proof. rewrite Q2R_plus, !Q2R_mult. reflexivity. Qed.

Lemma Q2R_sumsq_nonneg (a b : Q) : (0 <= Q2R (a * a + b * b))%R.
Proof. rewrite Q2R_sumsq. nra. Qed.

Lemma Q2R_sumsq_pos (a b : Q) : ~ a * a + b * b == 0 -> (0 < Q2R (a * a + b * b))%R.
Proof.
  intros H. destruct (Q2R_sumsq_nonneg a b) as [Hlt | Heq]; [exact Hlt|].
  exfalso. apply H. apply Q2R_eq0. symmetry. exact Heq.
Qed.

Lemma Qsumsq_eq0 (a b : Q) : a * a + b * b == 0 <-> a == 0 /\ b == 0.
Proof.
  split.
  - intros H. apply Q2R_eq0 in H. rewrite Q2R_sumsq in H.
    split; apply Q2R_eq0; nra.
  - intros [Ha Hb]. rewrite Ha, Hb. reflexivity.
Qed.

(** The square root of a sum of squares is the Euclidean distance: [dist] is
    injective on squared distances. *)
Lemma dist_eq_iff (p q r s : Point) :
  dist p q = dist r s <->
  (px p - px q) * (px p - px q) + (py p - py q) * (py p - py q)
  == (px r - px s) * (px r - px s) + (py r - py s) * (py r - py s).
Proof.
  unfold dist. split; intros H.
  - apply eqR_Qeq. apply sqrt_inj; [apply Q2R_sumsq_nonneg | apply Q2R_sumsq_nonneg | exact H].
  - rewrite (Qeq_eqR _ _ H). reflexivity.
Qed.

(** ** [Line] queries *)

(** X1: [Line.x()] is [None] exactly when [a == 0], and otherwise a point of
    the line on the x-axis; [Line.y()] is [None] exactly when [b == 0], and
    otherwise a point of the line on the y-axis. *)
Theorem intercepts_on_line (l : Line) :
  (x_intercept l = None <-> la l == 0) /\
  (forall p, x_intercept l = Some p -> py p = 0 /\ contains l p = true) /\
  (y_intercept l = None <-> lb l == 0) /\
  (forall p, y_intercept l = Some p -> px p = 0 /\ contains l p = true).
Proof.
  unfold x_intercept, y_intercept. split; [|split; [|split]].
  - qcase E; split; intros H; first [reflexivity | assumption | discriminate | contradiction].
  - intros p. qcase E; intros H; [discriminate|]. injection H as <-.
    split; [reflexivity|]. apply on_contains. cbn [px py]. field. exact E.
  - qcase E; split; intros H; first [reflexivity | assumption | discriminate | contradiction].
  - intros p. qcase E; intros H; [discriminate|]. injection H as <-.
    split; [reflexivity|]. apply on_contains. cbn [px py]. field. exact E.
Qed.

(** X2: round trip of the slope-intercept form:
    [from_slope_intercept_form(m, q).slope_intercept_form() == (m, q)], and
    [from_point_slope_form(p, m)] has slope [m] and contains [p]. *)
Theorem slope_intercept_roundtrip (m q : Q) (p : Point) :
  fl_eqb (fst (slope_intercept_form (from_slope_intercept_form m q))) (Fin m) = true /\
  fl_eqb (snd (slope_intercept_form (from_slope_intercept_form m q))) (Fin q) = true /\
  fl_eqb (slope (from_point_slope_form p m)) (Fin m) = true /\
  contains (from_point_slope_form p m) p = true.
Proof.
  unfold slope_intercept_form, slope, intercept, from_slope_intercept_form,
    from_point_slope_form; cbn [fst snd la lb lc].
  assert (Hb : Qeq_bool (-1) 0 = false) by reflexivity. rewrite Hb.
  cbn [fl_eqb]. repeat split; try (apply Qeq_bool_iff; field).
  apply on_contains. cbn [la lb lc]. ring.
Qed.

(** X3: [Line.perpendicular(p)] raises [ZeroDivisionError] exactly for a
    horizontal line ([a == 0], [b != 0], slope [0]); otherwise it returns a
    line through [p] whose normal is orthogonal to that of the line
    ([a1*a2 + b1*b2 = 0]), vertical lines giving a horizontal one. *)
Theorem line_perpendicular_spec (l : Line) (p : Point) :
  (line_perpendicular l p = Err ZeroDivisionError <-> la l == 0 /\ ~ lb l == 0) /\
  (forall e, line_perpendicular l p = Err e -> e = ZeroDivisionError) /\
  (forall l', line_perpendicular l p = Ok l' ->
     contains l' p = true /\ la l * la l' + lb l * lb l' == 0).
Proof.
  unfold line_perpendicular, slope, div. qcase Eb.
  - cbn [bind]. split; [|split].
    + split; [discriminate | intros [_ H]; contradiction].
    + discriminate.
    + intros l' H. injection H as <-. split.
      * apply on_contains. cbn. ring.
      * cbn. rewrite Eb. ring.
  - qcase Es.
    + cbn [bind]. split; [|split].
      * split; [intros _ | reflexivity]. split; [|exact Eb].
        apply Qdiv_eq0_iff in Es; [|exact Eb].
        setoid_replace (la l) with (- - la l) by ring. rewrite Es. reflexivity.
      * intros e H. injection H as <-. reflexivity.
      * discriminate.
    + cbn [bind]. split; [|split].
      * split; [discriminate | intros [Ha _]]. exfalso. apply Es.
        rewrite Ha. field. exact Eb.
      * discriminate.
      * intros l' H. injection H as <-. split.
        -- apply on_contains. cbn. ring.
        -- cbn [from_slope_intercept_form la lb]. field.
           split; [exact Eb|]. intros Ha. apply Es. rewrite Ha. field. exact Eb.
Qed.

(** X4: [Point.dist(line)] (and [Line.dist(point)], the same formula) raises
    [ZeroDivisionError] exactly on the degenerate line [a = b = 0] (such as
    [Line.hline(y)]); otherwise it is non-negative and is [0] exactly when
    the point satisfies the line's equation. *)
Theorem point_line_dist_spec (p : Point) (l : Line) :
  line_point_dist l p = point_line_dist p l /\
  (point_line_dist p l = Err ZeroDivisionError <-> la l == 0 /\ lb l == 0) /\
  (forall d, point_line_dist p l = Ok d -> (0 <= d)%R /\ (d = 0%R <-> on_line l p)).
Proof.
  split; [reflexivity|]. unfold point_line_dist. qcase Eh.
  - split; [split; [intros _; apply Qsumsq_eq0; exact Eh | reflexivity]|].
    discriminate.
  - split; [split; [discriminate | intros H; exfalso; apply Eh, Qsumsq_eq0, H]|].
    intros d H. injection H as <-.
    pose proof (Q2R_sumsq_pos _ _ Eh) as Hpos.
    pose proof (sqrt_lt_R0 _ Hpos) as Hs.
    split.
    + unfold Rdiv. apply Rmult_le_pos; [apply Rabs_pos | left; apply Rinv_0_lt_compat; exact Hs].
    + unfold on_line. rewrite <- Q2R_eq0. split; intros H.
      * apply Rmult_integral in H as [H | H].
        -- destruct (Req_dec (Q2R (la l * px p + lb l * py p + lc l)) 0) as [Hz | Hz];
             [exact Hz|]. exfalso. exact (Rabs_no_R0 _ Hz H).
        -- exfalso. apply Rinv_neq_0_compat in H; [exact H | lra].
      * rewrite H, Rabs_R0. lra.
Qed.

(** X5: [Point.dist(line)] is the perpendicular distance: the foot
    [p - t (a, b)], [t = (a*x + b*y + c) / (a*a + b*b)], lies on the line
    and is at exactly that distance from [p]. *)
Theorem point_line_dist_foot (p : Point) (l : Line) (d : R) :
  point_line_dist p l = Ok d ->
  let t := (la l * px p + lb l * py p + lc l) / (la l * la l + lb l * lb l) in
  let f := mkPoint (px p - t * la l) (py p - t * lb l) in
  on_line l f /\ dist p f = d.
Proof.
  unfold point_line_dist. qcase Eh; [discriminate|]. intros H. injection H as <-.
  cbv zeta. unfold on_line, dist; cbn [px py]. split.
  - field. exact Eh.
  - set (E := la l * px p + lb l * py p + lc l).
    set (h := la l * la l + lb l * lb l).
    assert (Hq : (px p - (px p - E / h * la l)) * (px p - (px p - E / h * la l))
                 + (py p - (py p - E / h * lb l)) * (py p - (py p - E / h * lb l))
                 == E * E / h).
    { subst h. field. exact Eh. }
    rewrite (Qeq_eqR _ _ Hq), Q2R_div, Q2R_mult by exact Eh.
    pose proof (Q2R_sumsq_pos _ _ Eh) as Hpos. fold h in Hpos.
    rewrite sqrt_div_alt by exact Hpos.
    rewrite <- sqrt_Rsqr_abs. reflexivity.
Qed.

Lemma Q2R_one : Q2R 1 = 1%R.
Proof. unfold Q2R; cbn [Qnum Qden]. lra. Qed.

(** The midpoint of [A B] is half-way along [A B]. *)
Lemma midpoint_half_dist (A B : Point) :
  let M := mkPoint (mean [px A; px B]) (mean [py A; py B]) in
  dist A M = dist M B /\ (2 * dist A M)%R = dist A B.
Proof.
  cbv zeta. split.
  - apply dist_eq_iff. cbn [px py]. rewrite !mean2. field.
  - unfold dist; cbn [px py].
    assert (Hsq : (px A - px B) * (px A - px B) + (py A - py B) * (py A - py B)
                  == 4 * ((px A - mean [px A; px B]) * (px A - mean [px A; px B])
                          + (py A - mean [py A; py B]) * (py A - mean [py A; py B]))).
    { rewrite !mean2. field. }
    rewrite (Qeq_eqR _ _ Hsq), Q2R_mult.
    replace (Q2R 4) with 4%R by (unfold Q2R; cbn [Qnum Qden]; field).
    rewrite sqrt_4_mult. reflexivity.
Qed.

(** The points of [Segment(A, B).perpendicular_bisector()] are the points
    equidistant from [A] and [B]. *)
Lemma pb_equidistant (A B : Point) (l : Line) :
  perpendicular_bisector (mkSegment A B) = Ok l ->
  ~ (px A == px B /\ py A == py B) ->
  forall X, on_line l X <-> dist X A = dist X B.
Proof.
  intros H HAB X. apply perpendicular_bisector_midpoint in H.
  rewrite (seg_perpendicular_dot _ _ _ _ H HAB X), dist_eq_iff. cbn [px py].
  rewrite !mean2.
  set (D := (px X - (px A + px B) / 2) * (px B - px A)
            + (py X - (py A + py B) / 2) * (py B - py A)).
  set (SA := (px X - px A) * (px X - px A) + (py X - py A) * (py X - py A)).
  set (SB := (px X - px B) * (px X - px B) + (py X - py B) * (py X - py B)).
  assert (HD : SA - SB == 2 * D) by (subst D SA SB; field).
  split; intros E.
  - apply (proj1 (Qminus_eq0 SA SB)). rewrite HD, E. ring.
  - apply (proj2 (Qminus_eq0 SA SB)) in E.
    setoid_replace D with ((SA - SB) / 2) by (rewrite HD; field).
    rewrite E. field.
Qed.

(** [Line.dist(other)] for two lines, in the non-vertical case equal
    slopes: the distance from any point of [o] to [s]. *)
Lemma point_line_dist_parallel (s o : Line) (p : Point) (d : R) :
  ~ lb s == 0 -> ~ lb o == 0 -> - la s / lb s == - la o / lb o ->
  on_line o p -> point_line_dist p s = Ok d ->
  d = (Rabs (Q2R (- lc s / lb s - - lc o / lb o))
       / sqrt (Q2R (- la s / lb s * (- la s / lb s)) + 1))%R.
Proof.
  intros Hb Ho Hm Hp. unfold point_line_dist. qcase Eh; [discriminate|].
  intros Hd. injection Hd as <-. unfold on_line in Hp.
  assert (Hpy : py p == - la o / lb o * px p + - lc o / lb o).
  { setoid_replace (py p) with
      ((la o * px p + lb o * py p + lc o - la o * px p - lc o) / lb o)
      by (field; exact Ho).
    rewrite Hp. field. exact Ho. }
  assert (HE : la s * px p + lb s * py p + lc s
               == - lb s * (- lc s / lb s - - lc o / lb o)).
  { rewrite Hpy, <- Hm. field. split; assumption. }
  assert (Hh : la s * la s + lb s * lb s
               == lb s * lb s * (- la s / lb s * (- la s / lb s) + 1)).
  { field. exact Hb. }
  set (q := - lc s / lb s - - lc o / lb o) in *.
  set (m := - la s / lb s) in *.
  rewrite (Qeq_eqR _ _ HE), (Qeq_eqR _ _ Hh).
  rewrite !Q2R_mult, Q2R_opp, Q2R_plus, Q2R_one, Q2R_mult, Rabs_mult, Rabs_Ropp.
  assert (Hb' : Q2R (lb s) <> 0%R) by (intros E; apply Hb, Q2R_eq0, E).
  assert (Hm1 : (0 < Q2R m * Q2R m + 1)%R) by nra.
  rewrite sqrt_mult_alt by nra.
  replace (sqrt (Q2R (lb s) * Q2R (lb s))) with (Rabs (Q2R (lb s)))
    by (rewrite <- sqrt_Rsqr_abs; reflexivity).
  pose proof (sqrt_lt_R0 _ Hm1) as Hs.
  pose proof (Rabs_no_R0 _ Hb') as Ha.
  field. split; lra.
Qed.

(** The three perpendicular bisectors of a triangle, as [Polygon.perpendicular_bisectors] lists them. *)
Lemma perpendicular_bisectors_triangle (A B C : Point) (b0 b1 b2 : Line) (bs : list Line) :
  perpendicular_bisector (mkSegment A B) = Ok b0 ->
  perpendicular_bisector (mkSegment B C) = Ok b1 ->
  perpendicular_bisector (mkSegment C A) = Ok b2 ->
  perpendicular_bisectors [A; B; C] = Ok bs -> bs = [b0; b1; b2].
Proof.
  intros E0 E1 E2. unfold perpendicular_bisectors, segments.
  cbn [tl app zipWith mapM]. rewrite E0, E1, E2. cbn [bind].
  intros H. injection H as <-. reflexivity.
Qed.

(** The three heights of a triangle, as [Polygon.perpendicular_heights] lists them. *)
Lemma perpendicular_heights_triangle (A B C : Point) (h0 h1 h2 : Line) (hs : list Line) :
  seg_perpendicular (mkSegment B C) A = Ok h0 ->
  seg_perpendicular (mkSegment C A) B = Ok h1 ->
  seg_perpendicular (mkSegment A B) C = Ok h2 ->
  perpendicular_heights [A; B; C] = Ok hs -> hs = [h0; h1; h2].
Proof.
  intros E0 E1 E2. unfold perpendicular_heights, segments.
  cbn [tl app zipWith mapM fst snd]. rewrite E0, E1, E2. cbn [bind].
  intros H. injection H as <-. reflexivity.
Qed.

(** X6: [Line.dist(other)] between two lines is [0.0] when their slopes
    differ, is not a number ([None]) for two vertical lines, and for
    non-vertical lines with equal slopes is the distance from any point of
    [other] to [self]. *)
Theorem line_dist_line_spec (s o : Line) :
  (fl_eqb (slope s) (slope o) = false -> line_dist_line s o = Some 0%R) /\
  (lb s == 0 -> lb o == 0 -> line_dist_line s o = None) /\
  (forall p d, ~ lb s == 0 -> fl_eqb (slope s) (slope o) = true -> on_line o p ->
     point_line_dist p s = Ok d -> line_dist_line s o = Some d).
Proof.
  unfold line_dist_line. cbv zeta. split; [|split].
  - intros H. rewrite H. reflexivity.
  - intros Hs Ho. unfold slope, intercept.
    rewrite (proj2 (Qeq_bool_iff _ _) Hs), (proj2 (Qeq_bool_iff _ _) Ho). reflexivity.
  - intros p d Hb Hsl Hp Hd. rewrite Hsl. cbn [negb].
    unfold slope in Hsl |- *. unfold intercept.
    assert (Eb : Qeq_bool (lb s) 0 = false) by (apply Qeq_bool_false_iff; exact Hb).
    rewrite Eb in Hsl |- *.
    destruct (Qeq_bool (lb o) 0) eqn:Eo; [discriminate|].
    apply Qeq_bool_false_iff in Eo. cbn [fl_eqb] in Hsl. apply Qeq_bool_iff in Hsl.
    f_equal. symmetry. exact (point_line_dist_parallel s o p d Hb Eo Hsl Hp Hd).
Qed.


(** X8: [Segment.midpoint()] always exists, lies on [Segment.line()] and
    splits the segment into two halves of [Segment.length() / 2] each. *)
Theorem segment_midpoint_halves (A B : Point) :
  exists M e, seg_midpoint (mkSegment A B) = Ok M /\ from_points A B = Ok e /\
    on_line e M /\ dist A M = dist M B /\
    (2 * dist A M)%R = seg_length (mkSegment A B).
Proof.
  destruct (from_points_through A B) as (e & He & Hon).
  destruct (midpoint_half_dist A B) as [H1 H2].
  exists (mkPoint (mean [px A; px B]) (mean [py A; py B])), e.
  split; [reflexivity|]. split; [exact He|].
  split; [|split; [exact H1 | exact H2]].
  apply (Hon _ (1 # 2)); cbn [px py]; rewrite mean2; field.
Qed.

(** X9: for [A != B], a point lies on [Segment(A, B).perpendicular_bisector()]
    exactly when it is equidistant from [A] and [B]. *)
Theorem perpendicular_bisector_equidistant (A B : Point) (l : Line) :
  perpendicular_bisector (mkSegment A B) = Ok l ->
  ~ (px A == px B /\ py A == py B) ->
  forall X, on_line l X <-> dist X A = dist X B.
Proof. exact (pb_equidistant A B l). Qed.

(** X10: the point returned by [circumcenter()] of a triangle is equidistant
    from the three vertices and lies on all three perpendicular bisectors. *)
Theorem circumcenter_equidistant (A B C O : Point) :
  noncollinear A B C ->
  circumcenter [A; B; C] = Ok (IPoint O) ->
  dist O A = dist O B /\ dist O B = dist O C /\
  forall bs, perpendicular_bisectors [A; B; C] = Ok bs -> Forall (fun b => on_line b O) bs.
Proof.
  intros Hnc Hcc.
  destruct (noncollinear_distinct _ _ _ Hnc) as (DAB & DBC & DCA).
  destruct (circumcenter_triangle _ _ _ _ Hcc) as (b0 & b1 & b2 & E0 & E1 & E2 & Ei).
  destruct (intersect_point_solution _ _ _ Ei) as (_ & HO0 & HO1).
  pose proof (pb_equidistant _ _ _ E0 DAB O) as P0.
  pose proof (pb_equidistant _ _ _ E1 DBC O) as P1.
  pose proof (pb_equidistant _ _ _ E2 DCA O) as P2.
  apply P0 in HO0. apply P1 in HO1.
  split; [exact HO0|]. split; [exact HO1|].
  intros bs Hbs. rewrite (perpendicular_bisectors_triangle _ _ _ _ _ _ _ E0 E1 E2 Hbs).
  repeat constructor.
  - apply P0. exact HO0.
  - apply P1. exact HO1.
  - apply P2. rewrite HO0, HO1. reflexivity.
Qed.

(** X11: the heights of a triangle are concurrent: the point returned by
    [orthocenter()] (the meet of the first two heights) lies on all three
    lines of [perpendicular_heights()]. *)
Theorem orthocenter_on_all_heights (A B C H : Point) :
  noncollinear A B C ->
  orthocenter [A; B; C] = Ok (IPoint H) ->
  forall hs, perpendicular_heights [A; B; C] = Ok hs -> Forall (fun h => on_line h H) hs.
Proof.
  intros Hnc Hoc hs Hhs.
  destruct (noncollinear_distinct _ _ _ Hnc) as (DAB & DBC & DCA).
  destruct (orthocenter_triangle _ _ _ _ Hoc) as (h0 & h1 & h2 & F0 & F1 & F2 & Fi).
  destruct (intersect_point_solution _ _ _ Fi) as (_ & HH0 & HH1).
  rewrite (perpendicular_heights_triangle _ _ _ _ _ _ _ F0 F1 F2 Hhs).
  repeat constructor; [exact HH0 | exact HH1|].
  apply (seg_perpendicular_dot _ _ _ _ F2 DAB).
  apply (seg_perpendicular_dot _ _ _ _ F0 DBC) in HH0.
  apply (seg_perpendicular_dot _ _ _ _ F1 DCA) in HH1.
  cbn [px py] in HH0, HH1 |- *.
  match type of HH0 with ?e0 == 0 => match type of HH1 with ?e1 == 0 =>
    transitivity (- (e0 + e1)); [ring | rewrite HH0, HH1; ring] end end.
Qed.

(** ** Lines in slope-intercept form *)

(** A non-vertical line is the graph [y = m x + q] of its [slope()] and
    [intercept()]. *)
Lemma on_line_slope_form (l : Line) (X : Point) :
  ~ lb l == 0 ->
  (on_line l X <-> py X == - la l / lb l * px X + - lc l / lb l).
Proof.
  intros Hb. unfold on_line. split; intros H.
  - setoid_replace (py X) with
      ((la l * px X + lb l * py X + lc l - la l * px X - lc l) / lb l)
      by (field; exact Hb).
    rewrite H. field. exact Hb.
  - rewrite H. field. exact Hb.
Qed.

(** [Point.dist(line)] for a non-vertical line: [|y - m x - q| / hypot(m, 1)]. *)
Lemma point_line_dist_slope_form (l : Line) (p : Point) (d : R) :
  ~ lb l == 0 -> point_line_dist p l = Ok d ->
  d = (Rabs (Q2R (py p - - la l / lb l * px p - - lc l / lb l))
       / sqrt (Q2R (- la l / lb l * (- la l / lb l)) + 1))%R.
Proof.
  intros Hb. unfold point_line_dist. qcase Eh; [discriminate|].
  intros Hd. injection Hd as <-.
  assert (HE : la l * px p + lb l * py p + lc l
               == lb l * (py p - - la l / lb l * px p - - lc l / lb l)).
  { field. exact Hb. }
  assert (Hh : la l * la l + lb l * lb l
               == lb l * lb l * (- la l / lb l * (- la l / lb l) + 1)).
  { field. exact Hb. }
  set (q := py p - - la l / lb l * px p - - lc l / lb l) in *.
  set (m := - la l / lb l) in *.
  rewrite (Qeq_eqR _ _ HE), (Qeq_eqR _ _ Hh).
  rewrite !Q2R_mult, Q2R_plus, Q2R_one, Q2R_mult, Rabs_mult.
  assert (Hb' : Q2R (lb l) <> 0%R) by (intros E; apply Hb, Q2R_eq0, E).
  assert (Hm1 : (0 < Q2R m * Q2R m + 1)%R) by nra.
  rewrite sqrt_mult_alt by nra.
  replace (sqrt (Q2R (lb l) * Q2R (lb l))) with (Rabs (Q2R (lb l)))
    by (rewrite <- sqrt_Rsqr_abs; reflexivity).
  pose proof (sqrt_lt_R0 _ Hm1) as Hs.
  pose proof (Rabs_no_R0 _ Hb') as Ha.
  field. split; lra.
Qed.

(** Two non-vertical lines with different slopes are not parallel. *)
Lemma slopes_differ_denom (s o : Line) :
  ~ lb s == 0 -> ~ lb o == 0 -> ~ - la s / lb s == - la o / lb o ->
  ~ (lb s * la o - la s * lb o == 0).
Proof.
  intros Hs Ho Hm HD. apply Hm. apply (proj1 (Qminus_eq0 _ _)).
  setoid_replace (- la s / lb s - - la o / lb o)
    with ((lb s * la o - la s * lb o) / (lb s * lb o)) by (field; split; assumption).
  rewrite HD. field. split; assumption.
Qed.

(** X12: [Line.bisect(other)] on two non-vertical lines always returns a
    line, of slope [mean([m1, m2])]: for equal slopes every point of it is
    equally far from both lines, and for different slopes it passes through
    their intersection point.  With a vertical line the code computes with
    [inf] coefficients ([None] here). *)
Theorem bisect_spec (s o : Line) :
  (lb s == 0 \/ lb o == 0 -> bisect s o = None) /\
  (~ lb s == 0 -> ~ lb o == 0 ->
   exists l, bisect s o = Some (Ok l) /\
     la l == mean [- la s / lb s; - la o / lb o] /\ lb l == -1 /\
     (- la s / lb s == - la o / lb o ->
        forall p d1 d2, on_line l p -> point_line_dist p s = Ok d1 ->
        point_line_dist p o = Ok d2 -> d1 = d2) /\
     (~ - la s / lb s == - la o / lb o ->
        forall X, on_line s X -> on_line o X -> on_line l X)).
Proof.
  split.
  - intros [H | H]; unfold bisect, slope_intercept_form, slope, intercept;
      rewrite (proj2 (Qeq_bool_iff _ _) H); [reflexivity|].
    destruct (Qeq_bool (lb s) 0); reflexivity.
  - intros Hs Ho.
    assert (Es : Qeq_bool (lb s) 0 = false) by (apply Qeq_bool_false_iff; exact Hs).
    assert (Eo : Qeq_bool (lb o) 0 = false) by (apply Qeq_bool_false_iff; exact Ho).
    unfold bisect, slope_intercept_form, slope, intercept. rewrite Es, Eo.
    cbv beta iota zeta.
    qcase Em.
    + eexists. split; [reflexivity|]. split; [reflexivity|]. split; [reflexivity|].
      split; [|intros Hm; contradiction].
      intros _ p d1 d2 Hp H1 H2.
      rewrite (point_line_dist_slope_form s p d1 Hs H1),
              (point_line_dist_slope_form o p d2 Ho H2).
      unfold on_line in Hp. cbn [la lb lc from_slope_intercept_form] in Hp.
      rewrite !mean2 in Hp.
      set (m1 := - la s / lb s) in *. set (m2 := - la o / lb o) in *.
      set (q1 := - lc s / lb s) in *. set (q2 := - lc o / lb o) in *.
      assert (E1 : py p - m1 * px p - q1 == (q2 - q1) / 2).
      { match type of Hp with ?e == 0 =>
          transitivity (- e + (m2 - m1) / 2 * px p + (q2 - q1) / 2);
          [field | rewrite Hp, Em; field] end. }
      assert (E2 : py p - m2 * px p - q2 == - ((q2 - q1) / 2)).
      { match type of Hp with ?e == 0 =>
          transitivity (- e + (m1 - m2) / 2 * px p - (q2 - q1) / 2);
          [field | rewrite Hp, Em; field] end. }
      rewrite (Qeq_eqR _ _ E1), (Qeq_eqR _ _ E2), Q2R_opp, Rabs_Ropp.
      rewrite (Qeq_eqR (m1 * m1) (m2 * m2)) by (rewrite Em; reflexivity).
      reflexivity.
    + pose proof (slopes_differ_denom s o Hs Ho Em) as HD.
      pose proof (intersect_nonparallel_solution s o HD) as Hsol. cbv zeta in Hsol.
      destruct Hsol as (Hi & H1 & H2). rewrite Hi. cbn [bind].
      eexists. split; [reflexivity|]. split; [reflexivity|]. split; [reflexivity|].
      split; [intros Hm; contradiction|].
      intros _ X HX1 HX2.
      destruct (on_line_unique s o _ X HD H1 H2 HX1 HX2) as [Ex Ey].
      unfold on_line. cbn [la lb lc from_point_slope_form px py] in Ex, Ey |- *.
      rewrite <- Ex, <- Ey. ring.
Qed.


(** X14: two lines that compare equal with [==] (same slope and same
    intercept), the first one not vertical, have exactly the same points. *)
Theorem line_eq_same_points (s o : Line) :
  line_eqb s o = true -> ~ lb s == 0 ->
  forall X, on_line s X <-> on_line o X.
Proof.
  unfold line_eqb, slope, intercept. intros H Hs X.
  assert (Es : Qeq_bool (lb s) 0 = false) by (apply Qeq_bool_false_iff; exact Hs).
  rewrite Es in H. destruct (Qeq_bool (lb o) 0) eqn:Eo; [discriminate|].
  apply Qeq_bool_false_iff in Eo. cbn [fl_eqb] in H.
  apply andb_prop in H as [Hm Hq]. apply Qeq_bool_iff in Hm, Hq.
  rewrite (on_line_slope_form s X Hs), (on_line_slope_form o X Eo), Hm, Hq.
  reflexivity.
Qed.

(** ** Lists of cyclic vertex pairs *)

Section CyclicPairs.
Local Open Scope nat_scope.

Lemma mapM_ok_map {A B : Type} (f : A -> result B) (g : A -> B) xs :
  (forall x, f x = Ok (g x)) -> mapM f xs = Ok (map g xs).
Proof.
  intros H. induction xs as [|x xs IH]; cbn [mapM map]; [reflexivity|].
  rewrite H, IH. reflexivity.
Qed.

Lemma zipWith_app_l {A B C : Type} (f : A -> B -> C) xs ys zs :
  length xs <= length ys -> zipWith f xs (ys ++ zs) = zipWith f xs ys.
Proof.
  revert ys. induction xs as [|x xs IH]; intros [|y ys]; cbn [length zipWith app];
    intros H; try reflexivity; [lia|]. rewrite IH by lia. reflexivity.
Qed.

Lemma zipWith_app {A B C : Type} (f : A -> B -> C) xs xs' ys ys' :
  length xs = length ys ->
  zipWith f (xs ++ xs') (ys ++ ys') = zipWith f xs ys ++ zipWith f xs' ys'.
Proof.
  revert ys. induction xs as [|x xs IH]; intros [|y ys]; cbn [length zipWith app];
    intros H; try reflexivity; try lia. rewrite IH by lia. reflexivity.
Qed.

Lemma zipWith_map {A B C : Type} (f : B -> B -> C) (g : A -> B) xs ys :
  zipWith f (map g xs) (map g ys) = zipWith (fun p q => f (g p) (g q)) xs ys.
Proof.
  revert ys. induction xs as [|x xs IH]; intros [|y ys]; cbn [map zipWith];
    try reflexivity. rewrite IH. reflexivity.
Qed.

Lemma zipWith_ext {A B C : Type} (f g : A -> B -> C) xs ys :
  (forall x y, f x y = g x y) -> zipWith f xs ys = zipWith g xs ys.
Proof.
  intros H. revert ys. induction xs as [|x xs IH]; intros [|y ys]; cbn [zipWith];
    try reflexivity. rewrite H, IH. reflexivity.
Qed.

Lemma zipWith_flip {A C : Type} (f : A -> A -> C) xs ys :
  zipWith f ys xs = zipWith (fun p q => f q p) xs ys.
Proof.
  revert ys. induction xs as [|x xs IH]; intros [|y ys]; cbn [zipWith];
    try reflexivity. rewrite IH. reflexivity.
Qed.

Lemma zipWith_rev {A B C : Type} (f : A -> B -> C) xs ys :
  length xs = length ys -> zipWith f (rev xs) (rev ys) = rev (zipWith f xs ys).
Proof.
  revert ys. induction xs as [|x xs IH]; intros [|y ys]; cbn [length zipWith rev];
    intros H; try reflexivity; try lia.
  rewrite zipWith_app by (rewrite !length_rev; lia). rewrite IH by lia. reflexivity.
Qed.

Lemma tl_map {A B : Type} (g : A -> B) xs : tl (map g xs) = map g (tl xs).
Proof. destruct xs; reflexivity. Qed.

(** [zip(points, points[1:] + points)] pairs each vertex with the next one,
    the last vertex with the first. *)
Lemma cyclic_pairs {A C : Type} (f : A -> A -> C) x l :
  zipWith f (x :: l) (tl (x :: l) ++ x :: l) = zipWith f (x :: l) (l ++ [x]).
Proof.
  cbn [tl]. replace (l ++ x :: l) with ((l ++ [x]) ++ l)
    by (rewrite <- app_assoc; reflexivity).
  apply zipWith_app_l. rewrite length_app. cbn [length]. lia.
Qed.

(** Moving the first vertex to the end rotates the list of pairs. *)
Lemma cyclic_pairs_rotate {A C : Type} (f : A -> A -> C) x y l :
  exists M,
    zipWith f (x :: y :: l) (tl (x :: y :: l) ++ x :: y :: l) = f x y :: M /\
    zipWith f ((y :: l) ++ [x]) (tl ((y :: l) ++ [x]) ++ (y :: l) ++ [x]) = M ++ [f x y].
Proof.
  exists (zipWith f (y :: l) (l ++ [x])). split.
  - rewrite cyclic_pairs. reflexivity.
  - cbn [app]. rewrite cyclic_pairs.
    change (y :: l ++ [x]) with ((y :: l) ++ [x]).
    rewrite zipWith_app by (rewrite length_app; cbn [length]; lia). reflexivity.
Qed.

(** Reversing the vertices reverses and swaps the pairs. *)
Lemma cyclic_pairs_rev {A C : Type} (f : A -> A -> C) x l :
  zipWith f (x :: rev l) (rev l ++ [x]) =
  rev (zipWith (fun p q => f q p) (x :: l) (l ++ [x])).
Proof.
  rewrite <- zipWith_flip, <- zipWith_rev by (rewrite length_app; cbn [length]; lia).
  rewrite rev_app_distr. reflexivity.
Qed.

End CyclicPairs.

Lemma fold_left_Qplus (xs : list Q) (a : Q) : fold_left Qplus xs a == a + qsum xs.
Proof.
  revert a. induction xs as [|x xs IH]; intros a; cbn [fold_left qsum]; [ring|].
  rewrite IH. ring.
Qed.

Lemma fold_left_Rplus (xs : list R) (a : R) : fold_left Rplus xs a = (a + rsum xs)%R.
Proof.
  revert a. induction xs as [|x xs IH]; intros a; cbn [fold_left rsum]; [ring|].
  rewrite IH. ring.
Qed.

Lemma qsum_app (xs ys : list Q) : qsum (xs ++ ys) == qsum xs + qsum ys.
Proof. induction xs as [|x xs IH]; cbn [app qsum]; [ring|]. rewrite IH. ring. Qed.

Lemma rsum_app (xs ys : list R) : rsum (xs ++ ys) = (rsum xs + rsum ys)%R.
Proof. induction xs as [|x xs IH]; cbn [app rsum]; [ring|]. rewrite IH. ring. Qed.

Lemma qsum_rev (xs : list Q) : qsum (rev xs) == qsum xs.
Proof.
  induction xs as [|x xs IH]; cbn [rev qsum]; [reflexivity|].
  rewrite qsum_app, IH. cbn [qsum]. ring.
Qed.

Lemma rsum_rev (xs : list R) : rsum (rev xs) = rsum xs.
Proof.
  induction xs as [|x xs IH]; cbn [rev rsum]; [reflexivity|].
  rewrite rsum_app, IH. cbn [rsum]. ring.
Qed.

Lemma qsum_zipWith_ext {A B : Type} (f g : A -> B -> Q) xs ys :
  (forall x y, f x y == g x y) -> qsum (zipWith f xs ys) == qsum (zipWith g xs ys).
Proof.
  intros H. revert ys. induction xs as [|x xs IH]; intros [|y ys]; cbn [zipWith qsum];
    try reflexivity. rewrite H, IH. reflexivity.
Qed.

Lemma qsum_zipWith_opp {A B : Type} (f : A -> B -> Q) xs ys :
  qsum (zipWith (fun p q => - f p q) xs ys) == - qsum (zipWith f xs ys).
Proof.
  revert ys. induction xs as [|x xs IH]; intros [|y ys]; cbn [zipWith qsum];
    try reflexivity. rewrite IH. ring.
Qed.

(** Splitting a sum over pairs [f p q + tx (v q - v p) + ty (w p - w q)]. *)
Lemma qsum_zipWith_split {A : Type} (f : A -> A -> Q) (v w : A -> Q) (tx ty : Q) xs ys :
  length xs = length ys ->
  qsum (zipWith (fun p q => f p q + tx * (v q - v p) + ty * (w p - w q)) xs ys)
  == qsum (zipWith f xs ys) + tx * (qsum (map v ys) - qsum (map v xs))
     + ty * (qsum (map w xs) - qsum (map w ys)).
Proof.
  revert ys. induction xs as [|x xs IH]; intros [|y ys]; cbn [length zipWith qsum map];
    intros H; try ring; try discriminate.
  rewrite IH by (injection H as H; exact H). ring.
Qed.

(** ** [Polygon.area] and [Polygon.perimeter] *)

Lemma area_shoelace (pts : Polygon) :
  area pts = Qabs (fold_left Qplus (zipWith shoelace_term pts (tl pts ++ pts)) 0) / 2.
Proof. reflexivity. Qed.

Lemma qsum_rotate (c : Q) (M : list Q) : qsum (M ++ [c]) == qsum (c :: M).
Proof. rewrite qsum_app. cbn [qsum]. ring. Qed.

Lemma rsum_rotate (c : R) (M : list R) : rsum (M ++ [c]) = rsum (c :: M).
Proof. rewrite rsum_app. cbn [rsum]. ring. Qed.

Lemma Qabs_eq0 (x : Q) : Qabs x == 0 <-> x == 0.
Proof.
  split; intros H.
  - destruct (Qlt_le_dec x 0) as [Hn | Hp].
    + rewrite (Qabs_neg x) in H by (apply Qlt_le_weak; exact Hn).
      setoid_replace x with (- - x) by ring. rewrite H. reflexivity.
    + rewrite (Qabs_pos x Hp) in H. exact H.
  - rewrite H. reflexivity.
Qed.

Lemma area_rotate_aux (x : Point) (l : list Point) : area (l ++ [x]) == area (x :: l).
Proof.
  destruct l as [|y l]; [reflexivity|]. rewrite !area_shoelace.
  destruct (cyclic_pairs_rotate shoelace_term x y l) as (M & H1 & H2).
  rewrite H1, H2, !fold_left_Qplus, qsum_rotate. reflexivity.
Qed.

Lemma dist_sym (p q : Point) : dist p q = dist q p.
Proof.
  unfold dist. apply f_equal, Qeq_eqR. ring.
Qed.

Lemma dist_translate (tx ty : Q) (p q : Point) :
  dist (mkPoint (px p + tx) (py p + ty)) (mkPoint (px q + tx) (py q + ty)) = dist p q.
Proof.
  unfold dist; cbn [px py]. apply f_equal, Qeq_eqR. ring.
Qed.

Lemma perimeter_rotate_aux (x : Point) (l : list Point) :
  perimeter (l ++ [x]) = perimeter (x :: l).
Proof.
  destruct l as [|y l]; [reflexivity|]. unfold perimeter.
  destruct (cyclic_pairs_rotate dist x y l) as (M & H1 & H2).
  rewrite H1, H2, !fold_left_Rplus, rsum_rotate. reflexivity.
Qed.

Ltac finish_Qabs_div :=
  match goal with
  | |- Qabs ?a / _ == Qabs ?b / _ => setoid_replace a with b by ring; reflexivity
  end.

(** X15: the area of a triangle is half the absolute cross product of two of
    its sides, so it is [0] exactly for three collinear vertices. *)
Theorem area_triangle (A B C : Point) :
  area [A; B; C] == Qabs ((px B - px A) * (py C - py A) - (py B - py A) * (px C - px A)) / 2 /\
  (area [A; B; C] == 0 <->
   (px B - px A) * (py C - py A) - (py B - py A) * (px C - px A) == 0).
Proof.
  assert (H : area [A; B; C] ==
              Qabs ((px B - px A) * (py C - py A) - (py B - py A) * (px C - px A)) / 2).
  { rewrite area_shoelace. cbn [tl app zipWith fold_left]. unfold shoelace_term.
    finish_Qabs_div. }
  split; [exact H|]. rewrite H, Qdiv_eq0_iff by discriminate. apply Qabs_eq0.
Qed.

(** X16: [Polygon.area()] does not depend on which vertex the polygon starts
    from. *)
Theorem area_rotate (x : Point) (l : list Point) : area (l ++ [x]) == area (x :: l).
Proof. exact (area_rotate_aux x l). Qed.

(** X17: [Polygon.area()] does not depend on the orientation of the
    polygon: listing the vertices backwards gives the same area. *)
Theorem area_reverse (pts : Polygon) : area (rev pts) == area pts.
Proof.
  destruct pts as [|x l]; [reflexivity|]. cbn [rev].
  rewrite area_rotate_aux, !area_shoelace, !cyclic_pairs, cyclic_pairs_rev,
    !fold_left_Qplus, qsum_rev.
  rewrite (qsum_zipWith_ext _ (fun p q => - shoelace_term p q))
    by (intros p q; unfold shoelace_term; ring).
  rewrite qsum_zipWith_opp, !Qplus_0_l, Qabs_opp. reflexivity.
Qed.

(** X18: [Polygon.area()] is invariant under translation of all vertices by
    the same vector [(tx, ty)]. *)
Theorem area_translate (pts : Polygon) (tx ty : Q) :
  area (map (fun p => mkPoint (px p + tx) (py p + ty)) pts) == area pts.
Proof.
  destruct pts as [|x l]; [reflexivity|]. rewrite !area_shoelace.
  rewrite tl_map, <- map_app, zipWith_map, !cyclic_pairs, !fold_left_Qplus.
  rewrite (qsum_zipWith_ext _
             (fun p q => shoelace_term p q + tx * (py q - py p) + ty * (px p - px q)))
    by (intros p q; unfold shoelace_term; cbn [px py]; ring).
  rewrite qsum_zipWith_split by (rewrite length_app; cbn [length]; lia).
  assert (Hv : forall v : Point -> Q, qsum (map v (l ++ [x])) == qsum (map v (x :: l))).
  { intros v. rewrite map_app. cbn [map]. apply qsum_rotate. }
  rewrite !Hv. finish_Qabs_div.
Qed.

(** X19: [Polygon.perimeter()] does not depend on which vertex the polygon
    starts from. *)
Theorem perimeter_rotate (x : Point) (l : list Point) :
  perimeter (l ++ [x]) = perimeter (x :: l).
Proof. exact (perimeter_rotate_aux x l). Qed.

(** X20: [Polygon.perimeter()] does not depend on the orientation of the
    polygon. *)
Theorem perimeter_reverse (pts : Polygon) : perimeter (rev pts) = perimeter pts.
Proof.
  destruct pts as [|x l]; [reflexivity|]. cbn [rev].
  rewrite perimeter_rotate_aux. unfold perimeter.
  rewrite !cyclic_pairs, cyclic_pairs_rev, !fold_left_Rplus, rsum_rev.
  rewrite (zipWith_ext (fun p q => dist q p) dist) by (intros p q; apply dist_sym).
  reflexivity.
Qed.

(** X21: [Polygon.perimeter()] is invariant under translation of all vertices
    by the same vector [(tx, ty)]. *)
Theorem perimeter_translate (pts : Polygon) (tx ty : Q) :
  perimeter (map (fun p => mkPoint (px p + tx) (py p + ty)) pts) = perimeter pts.
Proof.
  unfold perimeter. rewrite tl_map, <- map_app, zipWith_map.
  rewrite (zipWith_ext _ dist) by (intros p q; apply dist_translate).
  reflexivity.
Qed.

(** ** [Polygon.medians] *)

(** X22: [Polygon.medians()] never raises and gives one segment per vertex:
    median [i] runs from vertex [i] to the midpoint of the edge from vertex
    [i + 1] to vertex [i + 2] (indices mod [n]). *)
Theorem medians_pairing (pts : Polygon) :
  exists ms, medians pts = Ok ms /\ length ms = length pts /\
  forall i, (i < length pts)%nat -> exists v w w',
    nth_error pts i = Some v /\
    nth_error pts ((i + 1) mod length pts) = Some w /\
    nth_error pts (((i + 1) mod length pts + 1) mod length pts) = Some w' /\
    nth_error ms i = Some (mkSegment v (mkPoint (mean [px w; px w']) (mean [py w; py w']))).
Proof.
  set (g := fun ps : Point * Segment =>
              mkSegment (fst ps) (mkPoint (mean [px (sA (snd ps)); px (sB (snd ps))])
                                          (mean [py (sA (snd ps)); py (sB (snd ps))]))).
  exists (map g (zipWith pair pts (tl (segments pts) ++ segments pts))).
  pose proof (length_segments pts) as Hls.
  split; [unfold medians; apply mapM_ok_map; intros [p s]; reflexivity|].
  split.
  - rewrite length_map, length_zipWith.
    pose proof (length_tl_app (segments pts)). lia.
  - intros i Hi. set (n := length pts) in *.
    assert (Hj : ((i + 1) mod n < n)%nat) by (apply Nat.mod_upper_bound; lia).
    destruct (nth_error_segments pts ((i + 1) mod n) Hj) as (w & w' & Hw & Hw' & Hs).
    destruct (nth_error pts i) as [v|] eqn:Hv; [| apply nth_error_None in Hv; lia].
    exists v, w, w'. split; [reflexivity|]. split; [exact Hw|]. split; [exact Hw'|].
    rewrite nth_error_map, nth_error_zipWith, Hv, nth_error_tl_app by lia.
    rewrite Hls. fold n. rewrite Hs. reflexivity.
Qed.

(** X23: the three medians of a triangle meet at [centroid()], two thirds of
    the way from each vertex to the midpoint of the opposite side. *)
Theorem centroid_on_medians (A B C : Point) :
  exists ms G, medians [A; B; C] = Ok ms /\ centroid [A; B; C] = Ok G /\
    length ms = 3%nat /\ map sA ms = [A; B; C] /\
    Forall (fun m => px G == px (sA m) + (2 # 3) * (px (sB m) - px (sA m)) /\
                     py G == py (sA m) + (2 # 3) * (py (sB m) - py (sA m))) ms.
Proof.
  exists [mkSegment A (mkPoint (mean [px B; px C]) (mean [py B; py C]));
          mkSegment B (mkPoint (mean [px C; px A]) (mean [py C; py A]));
          mkSegment C (mkPoint (mean [px A; px B]) (mean [py A; py B]))],
         (mkPoint (mean [px A; px B; px C]) (mean [py A; py B; py C])).
  split; [reflexivity|]. split; [reflexivity|]. split; [reflexivity|].
  split; [reflexivity|].
  repeat constructor; cbn [px py sA sB]; rewrite ?mean2, ?mean3; field.
Qed.

(** ** Witnesses: the hypotheses of the further properties hold on the
    doctest inputs of main.py. *)

Lemma point_line_dist_foot_witness :
  point_line_dist tA ln_a =
    Ok (Rabs (Q2R (la ln_a * px tA + lb ln_a * py tA + lc ln_a))
        / sqrt (Q2R (la ln_a * la ln_a + lb ln_a * lb ln_a)))%R /\
  (let t := (la ln_a * px tA + lb ln_a * py tA + lc ln_a)
            / (la ln_a * la ln_a + lb ln_a * lb ln_a) in
   let f := mkPoint (px tA - t * la ln_a) (py tA - t * lb ln_a) in
   on_line ln_a f /\
   dist tA f = (Rabs (Q2R (la ln_a * px tA + lb ln_a * py tA + lc ln_a))
                / sqrt (Q2R (la ln_a * la ln_a + lb ln_a * lb ln_a)))%R).
Proof.
  assert (H : point_line_dist tA ln_a =
    Ok (Rabs (Q2R (la ln_a * px tA + lb ln_a * py tA + lc ln_a))
        / sqrt (Q2R (la ln_a * la ln_a + lb ln_a * lb ln_a)))%R).
  { cbv beta zeta delta [point_line_dist].
    assert (E : Qeq_bool (la ln_a * la ln_a + lb ln_a * lb ln_a) 0 = false)
      by (vm_compute; reflexivity).
    rewrite E. reflexivity. }
  split; [exact H | exact (point_line_dist_foot tA ln_a _ H)].
Defined.


Lemma perpendicular_bisector_equidistant_witness :
  perpendicular_bisector (mkSegment tO tA) = Ok pb_tO_tA /\
  ~ (px tO == px tA /\ py tO == py tA) /\
  (forall X, on_line pb_tO_tA X <-> dist X tO = dist X tA).
Proof.
  assert (H1 : perpendicular_bisector (mkSegment tO tA) = Ok pb_tO_tA)
    by (vm_compute; reflexivity).
  assert (H2 : ~ (px tO == px tA /\ py tO == py tA)).
  { intros [H _]. vm_compute in H. discriminate H. }
  split; [exact H1 | split; [exact H2 |]].
  exact (perpendicular_bisector_equidistant tO tA pb_tO_tA H1 H2).
Defined.

Lemma circumcenter_equidistant_witness :
  noncollinear tA tO tB /\
  circumcenter [tA; tO; tB] = Ok (IPoint tri_circumcenter) /\
  dist tri_circumcenter tA = dist tri_circumcenter tO /\
  dist tri_circumcenter tO = dist tri_circumcenter tB /\
  (forall bs, perpendicular_bisectors [tA; tO; tB] = Ok bs ->
     Forall (fun b => on_line b tri_circumcenter) bs).
Proof.
  assert (Hn : noncollinear tA tO tB).
  { unfold noncollinear. intros H. vm_compute in H. discriminate H. }
  assert (Hc : circumcenter [tA; tO; tB] = Ok (IPoint tri_circumcenter))
    by (vm_compute; reflexivity).
  split; [exact Hn | split; [exact Hc |]].
  exact (circumcenter_equidistant _ _ _ _ Hn Hc).
Defined.

Lemma orthocenter_on_all_heights_witness :
  noncollinear tA tO tB /\
  orthocenter [tA; tO; tB] = Ok (IPoint tri_orthocenter) /\
  (forall hs, perpendicular_heights [tA; tO; tB] = Ok hs ->
     Forall (fun h => on_line h tri_orthocenter) hs).
Proof.
  assert (Hn : noncollinear tA tO tB).
  { unfold noncollinear. intros H. vm_compute in H. discriminate H. }
  assert (Ho : orthocenter [tA; tO; tB] = Ok (IPoint tri_orthocenter))
    by (vm_compute; reflexivity).
  split; [exact Hn | split; [exact Ho |]].
  exact (orthocenter_on_all_heights _ _ _ _ Hn Ho).
Defined.

Lemma line_eq_same_points_witness :
  line_eqb ln_a (mkLine 6 (-2) 4) = true /\ ~ lb ln_a == 0 /\
  (forall X, on_line ln_a X <-> on_line (mkLine 6 (-2) 4) X).
Proof.
  assert (H1 : line_eqb ln_a (mkLine 6 (-2) 4) = true) by (vm_compute; reflexivity).
  assert (H2 : ~ lb ln_a == 0).
  { intros H. vm_compute in H. discriminate H. }
  split; [exact H1 | split; [exact H2 |]].
  exact (line_eq_same_points _ _ H1 H2).
Defined.
